(** * semigrate: the migration engine of migrate.js, embedded in Rocq

    The engine is a chain of Q promises over one PostgreSQL client.  The
    embedding keeps that shape: every function of migrate.js is a function of
    the same name here; a promise-returning function becomes a [Task], a state
    and trace passing computation over the database behind the client.  The
    external collaborators (the pg client, the file system, [require]) are
    the variables of [Section Engine]; module [Sample] instantiates them with
    a small in-memory world on which the functions can be evaluated.  *)

From Stdlib Require Import List String Ascii NArith Arith Bool Lia.
From Stdlib Require Import Sorting.Sorted Sorting.Permutation.
Import ListNotations.
Open Scope string_scope.

(** ** Strings and paths (the parts of [path] the engine calls) *)

Definition LF : ascii := ascii_of_nat 10.
Definition CR : ascii := ascii_of_nat 13.
Definition newline : string := String LF "".

Definition is_slash (c : ascii) : bool := Ascii.eqb c "/".

Fixpoint has_char (p : ascii -> bool) (s : string) : bool :=
  match s with
  | EmptyString => false
  | String c s' => p c || has_char p s'
  end.

Fixpoint last_char (s : string) : option ascii :=
  match s with
  | EmptyString => None
  | String c EmptyString => Some c
  | String _ s' => last_char s'
  end.

Definition nonempty (s : string) : bool := negb (String.eqb s "").

(** [p.split('/')] *)
Fixpoint split_slash (p : string) : list string :=
  match p with
  | EmptyString => [""]
  | String c p' =>
      if is_slash c then "" :: split_slash p'
      else match split_slash p' with
           | segment :: segments => String c segment :: segments
           | [] => [String c ""]
           end
  end.

(** [parts.join('/')] *)
Fixpoint join_slash (parts : list string) : string :=
  match parts with
  | [] => ""
  | [part] => part
  | part :: rest => part ++ "/" ++ join_slash rest
  end.

(** [normalizeArray(parts, allowAboveRoot)] of the path module.  Its loop
    runs from the last part to the first: ['.'] is dropped, ['..'] is dropped
    and counted in [up], and a part met while [up] is not zero is dropped
    against it.  The result is the parts kept and the count left over. *)
Fixpoint normalizeArray (parts : list string) : list string * nat :=
  match parts with
  | [] => ([], 0)
  | part :: rest =>
      let '(kept, up) := normalizeArray rest in
      if String.eqb part "." then (kept, up)
      else if String.eqb part ".." then (kept, S up)
      else match up with
           | S up' => (kept, up')
           | O => (part :: kept, O)
           end
  end.

(** [path.normalize(p)]: a relative path keeps the ['..'] left over in
    front, an absolute one loses them; an empty result is ['.']; a trailing
    separator is kept. *)
Definition path_normalize (p : string) : string :=
  let isAbsolute := match p with String c _ => is_slash c | EmptyString => false end in
  let trailingSlash := match last_char p with Some c => is_slash c | None => false end in
  let '(kept, up) := normalizeArray (filter nonempty (split_slash p)) in
  let parts := if isAbsolute then kept else (repeat ".." up ++ kept)%list in
  let path := join_slash parts in
  let path := if String.eqb path "" && negb isAbsolute then "." else path in
  let path := if nonempty path && trailingSlash then path ++ "/" else path in
  if isAbsolute then "/" ++ path else path.

(** [path.join(directory, name)]: the arguments that are not empty, joined by
    a separator and normalized. *)
Definition path_join (directory name : string) : string :=
  path_normalize (join_slash (filter nonempty [directory; name])).

(** What [fs.readdirSync] gives for an entry is a file name: it is not empty,
    holds no separator and is neither ['.'] nor ['..']. *)
Definition is_entry_name (name : string) : bool :=
  negb (has_char is_slash name) && nonempty name
  && negb (String.eqb name ".") && negb (String.eqb name "..").

(** [path.basename(p)]: what follows the last separator (the paths of the
    engine never end in one). *)
Fixpoint basename_from (acc : string) (p : string) : string :=
  match p with
  | EmptyString => acc
  | String c p' =>
      if is_slash c then basename_from "" p' else basename_from (acc ++ String c "") p'
  end.

Definition path_basename (p : string) : string := basename_from "" p.

(** [path.extname(p)]: from the last ['.'] of the basename to its end; empty
    when there is no dot, when the only dot is the first character, and for
    [".."]. *)
Fixpoint ext_from (seen : bool) (acc : string) (s : string) : string :=
  match s with
  | EmptyString => acc
  | String c s' =>
      if Ascii.eqb c "." then
        (if seen then ext_from true (String c "") s' else ext_from true acc s')
      else ext_from true (if String.eqb acc "" then acc else acc ++ String c "") s'
  end.

Definition path_extname (p : string) : string :=
  let b := path_basename p in
  if String.eqb b ".." then "" else ext_from false "" b.

(** The regular expression of [parseMigrationSpec]: a first group of
    non-hyphens, a hyphen, and a second group of any characters up to the end.
    The first group cannot hold a hyphen, so the match splits at the first
    one; the dot of the second group stops at a line terminator, so the rest
    must not hold any. *)

(** The line terminators of the language: LF, CR, and the separators U+2028
    and U+2029.  A name is held here as the file system gives it, in UTF-8,
    where the two separators are the bytes E2 80 A8 and E2 80 A9. *)
Definition LINE_SEPARATOR : string :=
  String (ascii_of_nat 226) (String (ascii_of_nat 128) (String (ascii_of_nat 168) "")).
Definition PARAGRAPH_SEPARATOR : string :=
  String (ascii_of_nat 226) (String (ascii_of_nat 128) (String (ascii_of_nat 169) "")).
Definition LINE_TERMINATORS : list string :=
  [String LF ""; String CR ""; LINE_SEPARATOR; PARAGRAPH_SEPARATOR].

(** Whether a line terminator begins anywhere in [s]. *)
Fixpoint has_line_terminator (s : string) : bool :=
  match s with
  | EmptyString => false
  | String _ s' =>
      existsb (fun terminator => String.prefix terminator s) LINE_TERMINATORS
      || has_line_terminator s'
  end.

Fixpoint split_hyphen (s : string) : option (string * string) :=
  match s with
  | EmptyString => None
  | String c s' =>
      if Ascii.eqb c "-" then Some ("", s')
      else match split_hyphen s' with
           | Some (a, b) => Some (String c a, b)
           | None => None
           end
  end.

Definition match_spec (name : string) : option (string * string) :=
  match split_hyphen name with
  | Some (prefix, title) =>
      if has_line_terminator title then None else Some (prefix, title)
  | None => None
  end.

(** ** semver (the calls the engine makes into the semver package)

    A version that reaches the engine never carries a prerelease tag: a tag
    needs a hyphen and [parseMigrationSpec] hands [semver.valid] a hyphen free
    prefix; build metadata is dropped by [semver.valid].  The canonical
    version string [M.m.p] is therefore modelled by its three numbers.
    [semver.valid] lets no number above [MAX_SAFE_INTEGER] through, so the
    numbers of a catalog are the exact ones. *)
Module semver.

Record SemVer : Type := mk { major : N; minor : N; patch : N }.

Definition compare (a b : SemVer) : comparison :=
  match N.compare (major a) (major b) with
  | Eq => match N.compare (minor a) (minor b) with
          | Eq => N.compare (patch a) (patch b)
          | c => c
          end
  | c => c
  end.

Definition gt (a b : SemVer) : bool :=
  match compare a b with Gt => true | _ => false end.
Definition lt (a b : SemVer) : bool :=
  match compare a b with Lt => true | _ => false end.
Definition eq (a b : SemVer) : bool :=
  match compare a b with Eq => true | _ => false end.
Definition gte (a b : SemVer) : bool := negb (lt a b).

(** [semver.maxSatisfying(versions, '*')]: every release version satisfies
    ['*'], so this is the greatest element, [None] (null) on the empty
    list. *)
Fixpoint maxSatisfying (versions : list SemVer) : option SemVer :=
  match versions with
  | [] => None
  | v :: rest =>
      match maxSatisfying rest with
      | None => Some v
      | Some w => if gt w v then Some w else Some v
      end
  end.

(** The exclusive upper end of the caret range [^t]: the next version that
    changes the first non-zero component of [t]. *)
Definition caret_upper (t : SemVer) : SemVer :=
  if negb (N.eqb (major t) 0) then mk (major t + 1) 0 0
  else if negb (N.eqb (minor t) 0) then mk 0 (minor t + 1) 0
  else mk 0 0 (patch t + 1).

(** [semver.satisfies(v, '^' + t)]. *)
Definition satisfies_caret (v t : SemVer) : bool :=
  gte v t && lt v (caret_upper t).

(** *** [semver.valid] on a hyphen free string *)

Definition is_digit (c : ascii) : bool :=
  let n := nat_of_ascii c in (48 <=? n)%nat && (n <=? 57)%nat.

Definition is_alnum (c : ascii) : bool :=
  let n := nat_of_ascii c in
  is_digit c || ((65 <=? n)%nat && (n <=? 90)%nat) || ((97 <=? n)%nat && (n <=? 122)%nat).

Definition MAX_LENGTH : nat := 256.
Definition MAX_SAFE_INTEGER : N := 9007199254740991.

(** The digits at the head of [s], as a number, and what follows them. *)
Fixpoint digits (acc : N) (s : string) : N * string :=
  match s with
  | String c s' =>
      if is_digit c then digits (acc * 10 + N.of_nat (nat_of_ascii c - 48)) s'
      else (acc, s)
  | EmptyString => (acc, s)
  end.

(** A numeric identifier [0|[1-9]\d*]: no leading zero. *)
Definition numeric (s : string) : option (N * string) :=
  match s with
  | String c s' =>
      if Ascii.eqb c "0" then
        match s' with
        | String d _ => if is_digit d then None else Some (0%N, s')
        | EmptyString => Some (0%N, s')
        end
      else if is_digit c then Some (digits 0 s)
      else None
  | EmptyString => None
  end.

Definition expect (ch : ascii) (s : string) : option string :=
  match s with
  | String c s' => if Ascii.eqb c ch then Some s' else None
  | EmptyString => None
  end.

(** Build metadata after the ['+']: non-empty alphanumeric identifiers
    separated by dots.  [fresh] says that an identifier has just begun. *)
Fixpoint build_ids (fresh : bool) (s : string) : bool :=
  match s with
  | EmptyString => negb fresh
  | String c s' =>
      if is_alnum c then build_ids false s'
      else if Ascii.eqb c "." then negb fresh && build_ids true s'
      else false
  end.

Definition tail_ok (s : string) : bool :=
  match s with
  | EmptyString => true
  | String c s' => Ascii.eqb c "+" && build_ids true s'
  end.

Definition strip_v (s : string) : string :=
  match s with
  | String c s' => if Ascii.eqb c "v" then s' else s
  | EmptyString => s
  end.

(** The strict pattern of semver on a string without hyphen: an optional
    [v], three numeric identifiers separated by dots, optional build
    metadata, and nothing before or after. *)
Definition full_pattern (s : string) : option (N * N * N) :=
  match numeric (strip_v s) with
  | Some (ma, r1) =>
      match expect "." r1 with
      | Some r2 =>
          match numeric r2 with
          | Some (mi, r3) =>
              match expect "." r3 with
              | Some r4 =>
                  match numeric r4 with
                  | Some (pa, r5) => if tail_ok r5 then Some (ma, mi, pa) else None
                  | None => None
                  end
              | None => None
              end
          | None => None
          end
      | None => None
      end
  | None => None
  end.

Definition safe (n : N) : bool := (n <=? MAX_SAFE_INTEGER)%N.

(** [semver.valid(s)], that is [parse(s)]: a string of more than
    [MAX_LENGTH] characters is refused, the pattern is tested on the string
    as it is given (white space around the version is not overlooked), and
    the [SemVer] constructor throws, which [parse] turns into null, on a
    number above [MAX_SAFE_INTEGER]. *)
Definition valid (s : string) : option SemVer :=
  if (MAX_LENGTH <? String.length s)%nat then None
  else match full_pattern s with
       | Some (ma, mi, pa) =>
           if safe ma && safe mi && safe pa then Some (mk ma mi pa) else None
       | None => None
       end.

End semver.

Import semver.

(** ** Values, errors and events *)

(** What the engine throws or rejects with. *)
Inductive Exn : Type :=
| TypeError (message : string)     (* thrown by the language or by semver *)
| Error (message : string)         (* [new Error(message)] of [check] *)
| PgError (message : string)       (* the [err] a pg callback receives *)
| FsError (path : string)          (* thrown by [fs] *)
| ModuleError (filename : string). (* thrown or rejected by a required script *)

(** A migration as [parseMigrationSpec] builds it. *)
Record Migration : Type := mkMigration {
  version : SemVer;
  title : string;
  multiple : bool;
  path : string;
  files : list string
}.

(** [client.query(statement, parameters, callback)]. The only parameters the
    engine ever passes are versions. *)
Record Statement : Type := mkStatement {
  text : string;
  parameters : list SemVer
}.

(** [result.rows], read through [_.map(result, 'version')]: the version
    column of the rows. *)
Definition Rows : Type := list SemVer.

Definition BEGIN : string := "BEGIN".
Definition COMMIT : string := "COMMIT".
Definition ROLLBACK : string := "ROLLBACK".
Definition CREATE_SCHEMA : string := "CREATE SCHEMA IF NOT EXISTS semigrate".
Definition CREATE_TABLE : string :=
  "CREATE TABLE IF NOT EXISTS semigrate.migrations (" ++
  "   version varchar(32) primary key," ++
  "   date timestamptz default now()" ++
  ")".
Definition SELECT_VERSION : string := "SELECT version FROM semigrate.migrations".
Definition INSERT_VERSION : string :=
  "INSERT INTO semigrate.migrations (version) VALUES ($1)".
Definition DELETE_ALL : string := "DELETE FROM semigrate.migrations".

(** The [report] object and [console.log], with colours off. *)
Inductive Output : Type :=
| report_info (message : string)
| report_status (s : string)
| report_version (v : SemVer)                  (* [report.status(theme.version(v))] *)
| report_migration (id : SemVer) (title : string) (line : bool)
| report_load (filename : string)
| report_step (title : string)
| report_done
| console_log (s : string).

(** What a run does to the outside, in order. *)
Inductive Event : Type :=
| Issue (s : Statement)                 (* [client.query] is called *)
| Complete (s : Statement) (ok : bool)  (* the callback of that query fires *)
| Invoke (filename : string)            (* [require(filename)(conn)] *)
| Stdout (o : Output)
| Release                               (* [conn.done()] *)
| Callback (err : option Exn).          (* the completion callback, with its first argument *)

(** The value the variable [version] of [migrate] holds: null, a version
    string, or the array [Q.all] resolved with. *)
Inductive JsVersion : Type :=
| js_null
| js_string (v : SemVer)
| js_array (results : list Rows).

(** How a promise-returning call ends. [Thrown] is an exception raised
    synchronously, before a promise is returned: a [then] callback that throws
    rejects the promise [then] returned; an exception leaving a
    [process.nextTick] callback is [Uncaught] and no promise of the chain
    settles any more. *)
Inductive Outcome (A : Type) : Type :=
| Resolved (value : A)
| Rejected (reason : Exn)
| Thrown (reason : Exn)
| Uncaught (reason : Exn).

Arguments Resolved {A} value.
Arguments Rejected {A} reason.
Arguments Thrown {A} reason.
Arguments Uncaught {A} reason.

Definition is_resolved {A} (o : Outcome A) : bool :=
  match o with Resolved _ => true | _ => false end.

(** [semver.gt(a, b)] on whatever the two variables hold: the [SemVer]
    constructor throws a TypeError on anything that is not a version
    string. *)
Definition semver_gt (a b : JsVersion) : Exn + bool :=
  match a, b with
  | js_string v, js_string w => inr (semver.gt v w)
  | _, _ => inl (TypeError "Invalid Version")
  end.

(** [_.filter(array, predicate)] with a predicate that may throw: the first
    exception ends the filter; on an empty array the predicate is never
    called. *)
Fixpoint _filter {A} (predicate : A -> Exn + bool) (array : list A) : Exn + list A :=
  match array with
  | [] => inr []
  | x :: rest =>
      match predicate x with
      | inl e => inl e
      | inr keep =>
          match _filter predicate rest with
          | inl e => inl e
          | inr kept => inr (if keep then x :: kept else kept)
          end
      end
  end.

(** [array.sort(compare)], as an insertion sort (what is proved of it below
    holds of any sort by this comparison). *)
Section Sort.
Variable A : Type.
Variable cmp : A -> A -> comparison.

Fixpoint insert (x : A) (l : list A) : list A :=
  match l with
  | [] => [x]
  | y :: l' => match cmp x y with
               | Gt => y :: insert x l'
               | _ => x :: l
               end
  end.

Fixpoint sort (l : list A) : list A :=
  match l with
  | [] => []
  | x :: l' => insert x (sort l')
  end.
End Sort.

Arguments insert {A} cmp x l.
Arguments sort {A} cmp l.

(** [_.compact]: drops the [undefined] entries. *)
Fixpoint compact {A} (l : list (option A)) : list A :=
  match l with
  | [] => []
  | Some x :: l' => x :: compact l'
  | None :: l' => compact l'
  end.

(** ** The file system *)

Record FileSystem : Type := mkFileSystem {
  readdirSync : string -> option (list string);   (* [None]: throws *)
  statSync : string -> option bool;               (* [fs.statSync(p).isDirectory()];
                                                     [None]: [statSync] throws *)
  readFileSync : string -> option string          (* [None]: throws *)
}.

(** Whether [p] can be looked at and is a directory. *)
Definition isDirectory (fs : FileSystem) (p : string) : bool :=
  match statSync fs p with
  | Some directory => directory
  | None => false
  end.

(** [directory || '.'] *)
Definition or_dot (directory : string) : string :=
  if String.eqb directory "" then "." else directory.

Definition validMigrationType (file : string) : bool :=
  let extname := path_extname file in
  String.eqb extname ".sql" || String.eqb extname ".js".

Module VersionCatalog.
Section Catalog.
Variable fs : FileSystem.

Definition parseMigrationSpec (spec : string) : Exn + option Migration :=
  match match_spec (path_basename spec) with
  | None => inr None
  | Some (prefix, rest) =>
      match semver.valid prefix with
      | None => inr None
      | Some v =>
          match statSync fs spec with
          | None => inl (FsError spec)
          | Some true =>
              match readdirSync fs spec with
              | None => inl (FsError spec)
              | Some names =>
                  inr (Some (mkMigration v rest true spec
                               (filter validMigrationType (map (path_join spec) names))))
              end
          | Some false =>
              if validMigrationType spec then
                inr (Some (mkMigration v rest false spec [spec]))
              else inr None
          end
      end
  end.

(** [_.map(array, f)] with an [f] that may throw. *)
Fixpoint map_throwing {A B} (f : A -> Exn + B) (l : list A) : Exn + list B :=
  match l with
  | [] => inr []
  | x :: l' =>
      match f x with
      | inl e => inl e
      | inr y => match map_throwing f l' with
                 | inl e => inl e
                 | inr ys => inr (y :: ys)
                 end
      end
  end.

Definition compare_migrations (m1 m2 : Migration) : comparison :=
  semver.compare (version m1) (version m2).

Definition list (directory : string) : Exn + Datatypes.list Migration :=
  match readdirSync fs (or_dot directory) with
  | None => inl (FsError (or_dot directory))
  | Some names =>
      match map_throwing parseMigrationSpec (map (path_join directory) names) with
      | inl e => inl e
      | inr parsed => inr (sort compare_migrations (compact parsed))
      end
  end.
End Catalog.
End VersionCatalog.

(** ** Configuration *)

(** [config.load]: absent, one path, or an array of paths. *)
Inductive LoadOption : Type :=
| load_undefined
| load_path (filename : string)
| load_paths (filenames : list string).

Record Config : Type := mkConfig {
  colors : bool;
  database : string;
  directory : option string;
  reset_option : bool;
  migrate_option : bool;
  load_option : LoadOption;
  dry_run : bool
}.

(** [config.directory || '.'] *)
Definition directory_or_dot (config : Config) : string :=
  match directory config with
  | None => "."
  | Some d => or_dot d
  end.

(** [config.load || []], then [if (!_.isArray(scripts)) scripts = [scripts]]. *)
Definition scripts_of (l : LoadOption) : list string :=
  match l with
  | load_undefined => []
  | load_path filename => if String.eqb filename "" then [] else [filename]
  | load_paths filenames => filenames
  end.

(** [new Connection(client, done)]. The client is named by the database it
    was opened on; [done], the function that gives the client back to the
    pool, is held as what a call of it would do: the event [Release]. *)
Record Connection : Type := mkConnection {
  client : string;
  done : list Event
}.

(** How [require(filename)(conn)] ends: the script may fail to load or throw
    (before any promise exists), or return a value or a promise. *)
Inductive Completion : Type :=
| completes
| rejects (reason : Exn)
| throws (reason : Exn).

(** The lines [check] prints or fails with. *)
Definition OUT_OF_DATE : string := "Database is out-of-date.".
Definition UP_TO_DATE : string := "Database is up-to-date.".
Definition COMPATIBLE : string :=
  "WARNING: Database is newer than the code, but it is a compatible version.".
Definition INCOMPATIBLE : string :=
  "Database version is incompatible with the current code.".

(** ** The engine *)

Section Engine.
Local Open Scope list_scope.

(** The database behind the pg client, and the collaborators of the engine. *)
Context {DB : Type}.
Variable pg_connect : string -> DB -> option Exn.
Variable client_query : Statement -> DB -> (Exn + Rows) * DB.
Variable fs : FileSystem.
Variable require_ : string -> DB -> Completion * DB.

(** A promise-returning computation: from the database before to the
    outcome, the database after and the events in between. *)
Definition Task (A : Type) : Type := DB -> Outcome A * DB * list Event.

Definition Q_ {A} (value : A) : Task A := fun db => (Resolved value, db, []).
Definition reject {A} (reason : Exn) : Task A := fun db => (Rejected reason, db, []).
Definition throw {A} (reason : Exn) : Task A := fun db => (Thrown reason, db, []).

(** A call that writes to stdout and carries on. *)
Definition say {A} (o : Output) (rest : Task A) : Task A :=
  fun db => let '(r, db', t) := rest db in (r, db', Stdout o :: t).

Definition say_if {A} (condition : bool) (o : Output) (rest : Task A) : Task A :=
  if condition then say o rest else rest.

(** A [then] callback that throws rejects the promise [then] returned. *)
Definition caught {A} (r : Outcome A * DB * list Event) : Outcome A * DB * list Event :=
  match r with
  | (Thrown e, db, t) => (Rejected e, db, t)
  | _ => r
  end.

(** An exception that leaves a [process.nextTick] callback. *)
Definition in_tick {A} (body : Task A) : Task A :=
  fun db =>
    match body db with
    | (Thrown e, db', t) => (Uncaught e, db', t)
    | r => r
    end.

(** Sequencing without a handler boundary: [rest] runs once [p] has
    resolved, and throws where it throws. *)
Definition bind {A B} (p : Task A) (rest : A -> Task B) : Task B :=
  fun db =>
    match p db with
    | (Resolved a, db1, t1) => let '(o, db2, t2) := rest a db1 in (o, db2, t1 ++ t2)
    | (Rejected e, db1, t1) => (Rejected e, db1, t1)
    | (Thrown e, db1, t1) => (Thrown e, db1, t1)
    | (Uncaught e, db1, t1) => (Uncaught e, db1, t1)
    end.

(** [p.then(onFulfilled)] *)
Definition then_ {A B} (p : Task A) (onFulfilled : A -> Task B) : Task B :=
  bind p (fun a db => caught (onFulfilled a db)).

(** [p.then(onFulfilled, onRejected)] *)
Definition then2 {A B} (p : Task A) (onFulfilled : A -> Task B)
    (onRejected : Exn -> Task B) : Task B :=
  fun db =>
    match p db with
    | (Resolved a, db1, t1) =>
        let '(o, db2, t2) := caught (onFulfilled a db1) in (o, db2, t1 ++ t2)
    | (Rejected e, db1, t1) =>
        let '(o, db2, t2) := caught (onRejected e db1) in (o, db2, t1 ++ t2)
    | (Thrown e, db1, t1) => (Thrown e, db1, t1)
    | (Uncaught e, db1, t1) => (Uncaught e, db1, t1)
    end.

(** [p.thenResolve(value)] *)
Definition thenResolve {A B} (p : Task A) (value : B) : Task B :=
  then_ p (fun _ => Q_ value).

(** [p.then(null)]: the value passes through. *)
Definition pass {A} (a : A) : Task A := Q_ a.

(** [p.fin(callback)]: Q's [fin] takes one callback and calls it without
    arguments whichever way [p] settles, then settles as [p] did.  A second
    argument is not looked at. *)
Definition fin {A ARG} (p : Task A) (callback : Datatypes.list ARG -> Task unit)
    (unused : Datatypes.list ARG -> Task unit) : Task A :=
  then2 p
    (fun value => then_ (callback []) (fun _ => Q_ value))
    (fun reason => then_ (callback []) (fun _ => reject reason)).

(** [f.bind(null, a1, ..., an)]: the arguments bound come first. *)
Definition bind_args {ARG R} (f : Datatypes.list ARG -> R) (bound : Datatypes.list ARG)
  : Datatypes.list ARG -> R :=
  fun arguments => f (bound ++ arguments).

(** The completion callback of a run, recorded with its first argument (a
    missing one is [undefined], no error either). *)
Definition callback (arguments : Datatypes.list (option Exn)) : Task unit :=
  fun db => (Resolved tt, db, [Callback (hd None arguments)]).

Definition qMapSerial {X} (array : Datatypes.list X) (func : X -> Task unit) : Task unit :=
  fold_left (fun last x => then_ last (fun _ => func x)) array (Q_ tt).

Definition is_ok {A} (r : Exn + A) : bool :=
  match r with inr _ => true | inl _ => false end.

Definition settle {A} (r : Exn + A) : Outcome A :=
  match r with inr a => Resolved a | inl e => Rejected e end.

(** [Connection.prototype.query]: the statement goes to the client, and the
    promise settles when the client calls back. *)
Definition query (conn : Connection) (statement : string)
    (parameters : Datatypes.list SemVer) : Task Rows :=
  fun db =>
    let s := mkStatement statement parameters in
    let '(r, db') := client_query s db in
    (settle r, db', [Issue s; Complete s (is_ok r)]).

(** The client works through the statements it was handed, in the order it
    got them. *)
Fixpoint run_queue (queue : Datatypes.list Statement) (db : DB)
  : Datatypes.list (Statement * (Exn + Rows)) * DB :=
  match queue with
  | [] => ([], db)
  | s :: queue' =>
      let '(r, db1) := client_query s db in
      let '(rs, db2) := run_queue queue' db1 in
      ((s, r) :: rs, db2)
  end.

Fixpoint all_rows (rs : Datatypes.list (Statement * (Exn + Rows))) : Exn + Datatypes.list Rows :=
  match rs with
  | [] => inr []
  | (_, inl e) :: _ => inl e
  | (_, inr rows) :: rs' =>
      match all_rows rs' with
      | inl e => inl e
      | inr l => inr (rows :: l)
      end
  end.

(** The same, up to the first statement that fails and with it. *)
Fixpoint run_queue_to_failure (queue : Datatypes.list Statement) (db : DB)
  : Datatypes.list (Statement * (Exn + Rows)) * DB :=
  match queue with
  | [] => ([], db)
  | s :: queue' =>
      let '(r, db1) := client_query s db in
      match r with
      | inl _ => ([(s, r)], db1)
      | inr _ => let '(rs, db2) := run_queue_to_failure queue' db1 in ((s, r) :: rs, db2)
      end
  end.

(** [Q.all([conn.query(s1), conn.query(s2), ...])]: building the array calls
    [conn.query] for every statement, so all of them are with the client
    before the first one completes.  The promise resolves with the array of
    all rows once every statement has completed, and rejects with the first
    error as soon as one statement fails: the statements behind that one are
    still with the client then, and complete after the promise has settled
    (see [afterwards]). *)
Definition Q_all_query (conn : Connection) (statements : Datatypes.list string)
  : Task (Datatypes.list Rows) :=
  fun db =>
    let queue := map (fun s => mkStatement s []) statements in
    let '(rs, db') := run_queue_to_failure queue db in
    (settle (all_rows rs), db',
     map Issue queue ++ map (fun sr => Complete (fst sr) (is_ok (snd sr))) rs).

Definition connect (database : string) : Task Connection :=
  say (report_info ("Connecting to database " ++ database ++ "..." ++ newline)%string)
    (fun db =>
       match pg_connect database db with
       | Some err => (Rejected err, db, [])
       | None =>
           let conn := mkConnection database [Release] in
           bind (query conn BEGIN []) (fun _ => Q_ conn) db
       end).

Definition initialize (conn : Connection) : Task Connection :=
  say (report_info "Initializing migration schema...")
    (thenResolve
       (then_ (Q_all_query conn [CREATE_SCHEMA; CREATE_TABLE])
          (fun _ => say (report_status "done") (Q_ tt)))
       conn).

Definition detect (quiet : bool) (conn : Connection) : Task (option SemVer) :=
  then_ (query conn SELECT_VERSION [])
    (fun result =>
       let versions := result in
       let version := semver.maxSatisfying versions in
       match version with
       | Some v =>
           say_if (negb quiet) (report_info "Current version...")
             (say_if (negb quiet) (report_version v) (Q_ version))
       | None => Q_ version
       end).

Definition void {A} (p : Task A) : Task unit :=
  fun db => let '(o, db', t) := p db in
            (match o with
             | Resolved _ => Resolved tt
             | Rejected e => Rejected e
             | Thrown e => Thrown e
             | Uncaught e => Uncaught e
             end, db', t).

(** [Q(require(filename)(conn))] *)
Definition required (filename : string) (conn : Connection) : Task unit :=
  fun db =>
    let '(c, db') := require_ filename db in
    (match c with
     | completes => Resolved tt
     | rejects e => Rejected e
     | throws e => Thrown e
     end, db', [Invoke filename]).

Definition runStep (filename : string) (conn : Connection) (verbose : bool) : Task unit :=
  say_if verbose (report_step (path_basename filename))
    (let promise :=
       let extname := path_extname filename in
       if String.eqb extname ".sql" then
         match readFileSync fs filename with
         | None => throw (FsError filename)
         | Some script => void (query conn script [])
         end
       else if String.eqb extname ".js" then required filename conn
       else Q_ tt
     in
     then_ promise (fun _ => say_if verbose report_done (Q_ tt))).

(** The promise [steps] of [run]. *)
Definition steps (migration : Migration) (conn : Connection) : Task unit :=
  if multiple migration then
    qMapSerial (files migration) (fun file => runStep file conn true)
  else runStep (path migration) conn false.

Definition run (migration : Migration) (conn : Connection) : Task Rows :=
  then_ (steps migration conn)
    (fun _ => query conn INSERT_VERSION [version migration]).

(** The loop of [migrate]: [migrations.shift()], the unit, and the next
    round in its own tick. *)
Fixpoint resume (migrations : Datatypes.list Migration) (conn : Connection) : Task Connection :=
  match migrations with
  | [] => Q_ conn
  | migration :: rest =>
      let multiple := multiple migration in
      in_tick
        (say (report_migration (version migration)
                (title migration ++ (if multiple then "/" else ""))%string (negb multiple))
           (say_if multiple (console_log "")
              (bind (run migration conn)
                 (fun _ => say_if (negb multiple) report_done (resume rest conn)))))
  end.

Definition js_of (v : option SemVer) : JsVersion :=
  match v with Some s => js_string s | None => js_null end.

(** The predicate of the filter in [migrate]:
    [version === null || semver.gt(migration.version, version)]. *)
Definition is_pending (detected : JsVersion) (migration : Migration) : Exn + bool :=
  match detected with
  | js_null => inr true
  | _ => semver_gt (js_string (version migration)) detected
  end.

Definition migrate (migrations : Datatypes.list Migration) (conn : Connection) : Task Connection :=
  let versionPromise :=
    then2 (detect false conn)
      (fun version => Q_ (js_of version))
      (fun reason =>
         then_ (Q_all_query conn [ROLLBACK; BEGIN]) (fun results => Q_ (js_array results)))
  in
  then_ versionPromise
    (fun version =>
       match _filter (is_pending version) migrations with
       | inl e => throw e
       | inr migrations =>
           say_if (negb (Nat.eqb (List.length migrations) 0))
             (report_info ("Migrating database..." ++ newline)%string)
             (resume migrations conn)
       end).

Definition load (scripts : Datatypes.list string) (conn : Connection) : Task Connection :=
  thenResolve
    (qMapSerial scripts
       (fun filename =>
          match readFileSync fs filename with
          | None => throw (FsError filename)
          | Some content =>
              say (report_load filename)
                (then_ (query conn content []) (fun _ => say (console_log "") (Q_ tt)))
          end))
    conn.

Definition check (lastMigration : option SemVer) (conn : Connection) : Task Connection :=
  then_ (detect true conn)
    (fun version =>
       say (console_log "")
         (match version with
          | None => throw (Error OUT_OF_DATE)
          | Some v =>
              match semver_gt (js_of lastMigration) (js_string v), lastMigration with
              | inl e, _ => throw e
              | inr true, _ => throw (Error OUT_OF_DATE)
              | inr false, None => throw (TypeError "Invalid Version")
              | inr false, Some target =>
                  if semver.eq target v then
                    say (console_log UP_TO_DATE) (Q_ conn)
                  else if semver.satisfies_caret v target then
                    say (console_log COMPATIBLE) (Q_ conn)
                  else
                    throw (Error INCOMPATIBLE)
              end
          end)).

Definition reset (conn : Connection) : Task Connection :=
  say (report_info "Reseting database...")
    (then_ (query conn DELETE_ALL [])
       (fun _ => say (report_status "done") (Q_ conn))).

Definition finish (conn : Connection) : Task Connection :=
  thenResolve (query conn COMMIT []) conn.

(** The function [semigrate] passes to [then] in place of [finish] on a
    dry run. *)
Definition reverting (conn : Connection) : Task Connection :=
  say (report_info ("Reverting..." ++ newline)%string) (Q_ conn).

(** The promise chain of [semigrate], in two parts: up to [load], and from
    there through the commit (or its dry-run replacement) to [check]. *)
Definition loaded (config : Config) (migrations : Datatypes.list Migration) : Task Connection :=
  then_ (then_ (then_ (then_
    (connect (database config))
    initialize)
    (if reset_option config then reset else pass))
    (if migrate_option config then migrate migrations else pass))
    (load (scripts_of (load_option config))).

Definition chain (config : Config) (migrations : Datatypes.list Migration) : Task Connection :=
  let lastMigration := semver.maxSatisfying (map version migrations) in
  then_ (then_
    (loaded config migrations)
    (if negb (dry_run config) then finish else reverting))
    (check lastMigration).

(** [semigrate(config, callback)]; [None] is a call without a
    configuration. Reading [config.colors] comes first. *)
Definition semigrate (config : option Config) : Task Connection :=
  match config with
  | None => throw (TypeError "Cannot read property 'colors' of undefined")
  | Some config =>
      match VersionCatalog.list fs (directory_or_dot config) with
      | inl e => throw e
      | inr migrations =>
          fin (chain config migrations)
            (bind_args callback [None]) (bind_args callback [])
      end
  end.

End Engine.

(** * What the properties are stated in *)

(** ** Order of versions *)

Definition ascending_step (a b : SemVer) : Prop := semver.compare a b <> Gt.
Definition strict_step (a b : SemVer) : Prop := semver.compare a b = Lt.

(** Each element is not greater than the next. *)
Definition ascending (l : list SemVer) : Prop := Sorted ascending_step l.
(** Each element is smaller than the next. *)
Definition strictly_ascending (l : list SemVer) : Prop := Sorted strict_step l.

Fixpoint strictly_ascendingb (l : list SemVer) : bool :=
  match l with
  | a :: (b :: _) as rest => semver.lt a b && strictly_ascendingb rest
  | _ => true
  end.

(** A directory entry is named as a migration: a valid semantic version, a
    hyphen, and a title. *)
Definition well_named (name : string) : bool :=
  match match_spec name with
  | Some (prefix, _) =>
      match semver.valid prefix with Some _ => true | None => false end
  | None => false
  end.

(** ** Traces *)

(** The two pairs of statements the engine hands to the client together. *)
Definition together (s1 s2 : string) : Prop :=
  (s1 = CREATE_SCHEMA /\ s2 = CREATE_TABLE) \/ (s1 = ROLLBACK /\ s2 = BEGIN).

Definition is_migration_output (o : Output) : bool :=
  match o with report_migration _ _ _ => true | _ => false end.

(** A property of traces holds of a computation when it holds of its trace
    from every database. *)
Definition keeps {DB : Type} (P : list Event -> Prop) {A : Type} (m : @Task DB A) : Prop :=
  forall db, P (snd (m db)).

(** How often the connection was released. *)
Fixpoint releases (t : list Event) : nat :=
  match t with
  | [] => 0
  | Release :: t' => S (releases t')
  | _ :: t' => releases t'
  end.

(** How often it was released before the completion callback first fired;
    [None] when the callback never fired. *)
Fixpoint releases_before_callback (t : list Event) : option nat :=
  match t with
  | [] => None
  | Callback _ :: _ => Some 0
  | Release :: t' => option_map S (releases_before_callback t')
  | _ :: t' => releases_before_callback t'
  end.

(** The arguments the completion callback was called with, call by call. *)
Fixpoint callbacks (t : list Event) : list (option Exn) :=
  match t with
  | [] => []
  | Callback a :: t' => a :: callbacks t'
  | _ :: t' => callbacks t'
  end.






(** ** Detection *)

Definition SELECT : Statement := mkStatement SELECT_VERSION [].

(** What [detect] prints when it is not quiet. *)
Definition current_version_report (quiet : bool) (version : option SemVer) : list Event :=
  match version with
  | Some v => if quiet then []
              else [Stdout (report_info "Current version..."); Stdout (report_version v)]
  | None => []
  end.

(** ** Units, bookkeeping and the queue *)

Definition INSERT (v : SemVer) : Statement := mkStatement INSERT_VERSION [v].

Fixpoint pick {A B} (f : A -> option B) (l : list A) : list B :=
  match l with
  | [] => []
  | x :: l' => match f x with
               | Some y => y :: pick f l'
               | None => pick f l'
               end
  end.

(** The units a trace shows as begun: one [report.migration] each. *)
Definition started (t : list Event) : list SemVer :=
  pick (fun e => match e with
                 | Stdout (report_migration id _ _) => Some id
                 | _ => None
                 end) t.

(** The versions whose bookkeeping INSERT a trace shows as issued. *)
Definition inserts (t : list Event) : list SemVer :=
  pick (fun e => match e with
                 | Issue (mkStatement statement [v]) =>
                     if String.eqb statement INSERT_VERSION then Some v else None
                 | _ => None
                 end) t.

(** The versions whose bookkeeping INSERT a trace shows as completed without
    error: the versions recorded. *)
Definition recorded (t : list Event) : list SemVer :=
  pick (fun e => match e with
                 | Complete (mkStatement statement [v]) true =>
                     if String.eqb statement INSERT_VERSION then Some v else None
                 | _ => None
                 end) t.

(** The files [run] takes the steps of a unit from. *)
Definition step_files (migration : Migration) : list string :=
  if multiple migration then files migration else [path migration].

(** The filter of [migrate] on a version that was detected. *)
Definition newer_than (detected : option SemVer) (migration : Migration) : bool :=
  match detected with
  | None => true
  | Some v => semver.gt (version migration) v
  end.

(** A trace that begins no unit and touches no bookkeeping. *)
Definition quiet_trace (t : list Event) : Prop :=
  started t = [] /\ recorded t = [] /\ inserts t = [].

Section StepsDone.
Local Open Scope list_scope.
Context {DB : Type}.
Variable client_query : Statement -> DB -> (Exn + Rows) * DB.
Variable fs : FileSystem.
Variable require_ : string -> DB -> Completion * DB.

End StepsDone.

(** What [resume] prints before and after a unit. *)
Definition unit_header (m : Migration) : list Event :=
  Stdout (report_migration (version m)
            (title m ++ (if multiple m then "/" else ""))%string (negb (multiple m)))
  :: (if multiple m then [Stdout (console_log "")] else []).

Definition unit_footer (m : Migration) : list Event :=
  if multiple m then [] else [Stdout report_done].

(** What [migrate] prints when there is something to do. *)
Definition migrating_report (pending : list Migration) : list Event :=
  if negb (Nat.eqb (List.length pending) 0)
  then [Stdout (report_info ("Migrating database..." ++ newline)%string)]
  else [].

(** ** A sample world

    An in-memory stand-in for PostgreSQL, a few directories and scripts: the
    collaborators the engine is evaluated against in the examples below. *)
Module Sample.
Local Open Scope list_scope.

(** The bookkeeping table as the open transaction sees it ([working]) and
    as it is stored ([committed]).  [selectable] is off for a database whose
    [semigrate.migrations] cannot be read (a table of that name without a
    [version] column, say: [CREATE TABLE IF NOT EXISTS] passes over it and
    the SELECT fails).  After an error PostgreSQL refuses every statement
    until the transaction is rolled back ([aborted]). *)
Record Db : Type := mkDb {
  selectable : bool;
  aborted : bool;
  committed : list SemVer;
  working : list SemVer
}.

Definition semver_eqb (a b : SemVer) : bool := semver.eq a b.

Definition fail (d : Db) (message : string) : (Exn + Rows) * Db :=
  (inl (PgError message), mkDb (selectable d) true (committed d) (working d)).

Definition client_query (s : Statement) (d : Db) : (Exn + Rows) * Db :=
  let t := text s in
  if String.eqb t ROLLBACK then
    (inr [], mkDb (selectable d) false (committed d) (committed d))
  else if aborted d then
    if String.eqb t COMMIT then
      (inr [], mkDb (selectable d) false (committed d) (committed d))
    else fail d "current transaction is aborted"
  else if String.eqb t COMMIT then
    (inr [], mkDb (selectable d) false (working d) (working d))
  else if String.eqb t SELECT_VERSION then
    if selectable d then (inr (working d), d)
    else fail d "column version does not exist"
  else if String.eqb t INSERT_VERSION then
    match parameters s with
    | [v] =>
        if existsb (semver_eqb v) (working d) then fail d "duplicate key value"
        else (inr [], mkDb (selectable d) false (committed d) (working d ++ [v]))
    | _ => fail d "bind message supplies the wrong number of parameters"
    end
  else if String.eqb t DELETE_ALL then
    (inr [], mkDb (selectable d) false (committed d) [])
  else if String.eqb t "FAIL" then fail d "syntax error at or near FAIL"
  else (inr [], d).

Definition pg_connect (database : string) (d : Db) : option Exn :=
  if String.eqb database "down" then Some (PgError "connection refused") else None.

(** The directories: the layout of the README, one with two entries of the
    same version, one whose second script fails, one topping out at
    1.5.0, and an empty one. *)
Definition tree : list (string * list string) :=
  [ ("migrations",
      ["1.0.0-production.sql"; "0.0.2-add-views.sql"; "README.md";
       "0.0.1-initial-schema"; "latest-notes.sql"]);
    ("migrations/0.0.1-initial-schema",
      ["0001-tables.sql"; "0002-views.sql"; "0003-functions.sql"; "notes.txt"]);
    ("twice", ["1.0.0-a.sql"; "1.0.0-b.sql"]);
    ("failing", ["0.0.2-broken.sql"; "0.0.3-third.sql"; "0.0.1-first.sql"]);
    ("v15", ["1.5.0-release.sql"]);
    ("empty", []) ].

Fixpoint lookup (p : string) (t : list (string * list string)) : option (list string) :=
  match t with
  | [] => None
  | (d, names) :: t' => if String.eqb p d then Some names else lookup p t'
  end.

Definition fs : FileSystem :=
  mkFileSystem
    (fun p => lookup p tree)
    (fun p => Some (match lookup p tree with Some _ => true | None => false end))
    (fun p => if String.eqb p "failing/0.0.2-broken.sql" then Some "FAIL"
              else Some ("-- " ++ p)%string).

Definition require_ (filename : string) (d : Db) : Completion * Db := (completes, d).

Definition fresh : Db := mkDb true false [] [].
Definition unreadable : Db := mkDb false false [] [].
Definition at_version (v : SemVer) : Db := mkDb true false [v] [v].

Definition config (database directory : string) (dry : bool) : Config :=
  mkConfig true database (Some directory) false true load_undefined dry.

Definition semigrate (c : option Config) (d : Db) : Outcome Connection * Db * list Event :=
  semigrate pg_connect client_query fs require_ c d.

Definition conn : Connection := mkConnection "app" [Release].

(** The catalog of a directory, as [semigrate] reads it. *)
Definition catalog (directory : string) : list Migration :=
  match VersionCatalog.list fs directory with
  | inr migrations => migrations
  | inl _ => []
  end.

Definition names (directory : string) : list string :=
  match readdirSync fs directory with
  | Some l => l
  | None => []
  end.

Definition migrate (migrations : list Migration) (d : Db)
  : Outcome Connection * Db * list Event :=
  migrate client_query fs require_ migrations conn d.

Definition check (lastMigration : option SemVer) (d : Db)
  : Outcome Connection * Db * list Event :=
  check client_query lastMigration conn d.
End Sample.

(** Whether a statement with this text was issued. *)
Definition issued (statement : string) (t : list Event) : bool :=
  existsb (fun e => match e with
                    | Issue s => String.eqb (text s) statement
                    | _ => false
                    end) t.

(** Whether [console.log] printed this line. *)
Definition logged (line : string) (t : list Event) : bool :=
  existsb (fun e => match e with
                    | Stdout (console_log s) => String.eqb s line
                    | _ => false
                    end) t.

Definition first_unit : Migration :=
  mkMigration (semver.mk 0 0 1) "first.sql" false "failing/0.0.1-first.sql"
    ["failing/0.0.1-first.sql"].
Definition broken_unit : Migration :=
  mkMigration (semver.mk 0 0 2) "broken.sql" false "failing/0.0.2-broken.sql"
    ["failing/0.0.2-broken.sql"].
Definition third_unit : Migration :=
  mkMigration (semver.mk 0 0 3) "third.sql" false "failing/0.0.3-third.sql"
    ["failing/0.0.3-third.sql"].
Definition initial_schema : Migration :=
  mkMigration (semver.mk 0 0 1) "initial-schema" true "migrations/0.0.1-initial-schema"
    ["migrations/0.0.1-initial-schema/0001-tables.sql";
     "migrations/0.0.1-initial-schema/0002-views.sql";
     "migrations/0.0.1-initial-schema/0003-functions.sql"].

(** ** Reporting helpers and further observations *)

Fixpoint repeat_string (s : string) (k : nat) : string :=
  match k with
  | 0 => ""
  | S k' => (s ++ repeat_string s k')%string
  end.

(** [(new Array(size)).join(char)]: [size] empty slots joined by [char], one
    separator fewer than there are slots. *)
Definition join_empty_slots (size : nat) (char : string) : string :=
  repeat_string char (Nat.pred size).

(** [pad(n, width, char, right)], on the string [''+n].  The subtraction
    on [nat] stops at zero, as [Math.max(0, width-length+1)] does. *)
Definition pad (n : string) (width : nat) (char : string) (right : bool) : string :=
  let char := if String.eqb char "" then " " else char in
  let length := String.length n in
  let padSize := Nat.max 0 (width + 1 - length) in
  let padstr := join_empty_slots padSize char in
  if right then (n ++ padstr)%string else (padstr ++ n)%string.

Definition is_hyphen (c : ascii) : bool := Ascii.eqb c "-".

(** The statements a trace shows as issued, in order. *)
Definition statements (t : list Event) : list Statement :=
  pick (fun e => match e with Issue s => Some s | _ => None end) t.

(** The scripts a trace shows [load] announcing, in order. *)
Definition loaded_files (t : list Event) : list string :=
  pick (fun e => match e with Stdout (report_load filename) => Some filename | _ => None end) t.

(** ** Statements still with the client *)


(** How many statements a trace shows as completed. *)
Definition completions (t : list Event) : nat :=
  List.length (filter (fun e => match e with Complete _ _ => true | _ => false end) t).

(** The statements a trace leaves with the client, issued and not completed:
    the client completes what it holds in the order it got it. *)
Definition outstanding (t : list Event) : list Statement :=
  skipn (completions t) (statements t).

(** What the client still does once the promise of a run has settled with
    trace [t] at [db]: it works off the statements it holds. *)
Definition afterwards {DB : Type} (client_query : Statement -> DB -> (Exn + Rows) * DB)
    (t : list Event) (db : DB) : list Event * DB :=
  let '(rs, db') := run_queue client_query (outstanding t) db in
  (map (fun sr => Complete (fst sr) (is_ok (snd sr))) rs, db').




(** A property of the database before, of whether the promise resolved, of
    the database after and of the trace holds of a computation when it holds
    from every database. *)
Definition upholds {DB : Type} (G : DB -> bool -> DB -> list Event -> Prop) {A : Type}
    (m : @Task DB A) : Prop :=
  forall db, G db (is_resolved (fst (fst (m db)))) (snd (fst (m db))) (snd (m db)).

(** ** Loading *)

Section ScriptsLoaded.
Local Open Scope list_scope.
Context {DB : Type}.
Variable client_query : Statement -> DB -> (Exn + Rows) * DB.
Variable fs : FileSystem.

(** Every one of the scripts was read, announced, issued and taken by the
    database, one after the other. *)
Inductive ScriptsLoaded : list string -> DB -> DB -> list Event -> Prop :=
| ScriptsLoaded_nil (db : DB) : ScriptsLoaded [] db db []
| ScriptsLoaded_cons (filename : string) (rest : list string) (content : string)
    (rows : Rows) (db db1 db2 : DB) (t : list Event) :
    readFileSync fs filename = Some content ->
    client_query (mkStatement content []) db = (inr rows, db1) ->
    ScriptsLoaded rest db1 db2 t ->
    ScriptsLoaded (filename :: rest) db db2
      ([Stdout (report_load filename);
        Issue (mkStatement content []); Complete (mkStatement content []) true;
        Stdout (console_log "")] ++ t).
End ScriptsLoaded.

(** The sample directories with one script and one group directory that
    cannot be read, and one entry that cannot be looked at. *)
Module Unreadable.
Definition fs : FileSystem :=
  mkFileSystem
    (fun p => if String.eqb p "migrations/0.0.1-initial-schema" then None
              else readdirSync Sample.fs p)
    (fun p => if String.eqb p "v15/1.5.0-release.sql" then None
              else statSync Sample.fs p)
    (fun p => if String.eqb p "failing/0.0.1-first.sql" then None
              else if String.eqb p "migrations/0.0.1-initial-schema/0001-tables.sql" then None
              else readFileSync Sample.fs p).

Definition group_unit : Migration :=
  mkMigration (semver.mk 0 0 1) "initial-schema" true "migrations/0.0.1-initial-schema"
    ["migrations/0.0.1-initial-schema/0001-tables.sql";
     "migrations/0.0.1-initial-schema/0002-views.sql"].
End Unreadable.

(** A database whose user may not create a schema: the first statement of
    [initialize] fails, and the transaction is aborted from there on. *)
Module Refusing.
Definition client_query (s : Statement) (d : Sample.Db) : (Exn + Rows) * Sample.Db :=
  if String.eqb (text s) CREATE_SCHEMA
  then Sample.fail d "permission denied for database"
  else Sample.client_query s d.
End Refusing.

(** * Properties *)

(** ** The model at a few inputs *)

Example valid_1_5_0 : semver.valid "1.5.0" = Some (semver.mk 1 5 0).
Proof. reflexivity. Qed.
Example valid_v_build : semver.valid "v0.10.2+b1.x" = Some (semver.mk 0 10 2).
Proof. reflexivity. Qed.
Example valid_untrimmed : semver.valid " 1.2.3" = None.
Proof. reflexivity. Qed.
Example valid_unsafe_number : semver.valid "9007199254740992.0.0" = None.
Proof. reflexivity. Qed.
Example valid_safe_number :
  semver.valid "9007199254740991.0.0" = Some (semver.mk 9007199254740991 0 0).
Proof. reflexivity. Qed.
Example join_dot : path_join "." "1.0.0-a.sql" = "1.0.0-a.sql".
Proof. reflexivity. Qed.
Example join_dot_slash : path_join "./v15" "1.5.0-release.sql" = "v15/1.5.0-release.sql".
Proof. reflexivity. Qed.
Example join_empty : path_join "" "1.0.0-a.sql" = "1.0.0-a.sql".
Proof. reflexivity. Qed.
Example join_trailing : path_join "migrations/" "1.0.0-a.sql" = "migrations/1.0.0-a.sql".
Proof. reflexivity. Qed.
Example join_up : path_join "a/../../b//" "c" = "../b/c".
Proof. reflexivity. Qed.
Example join_absolute : path_join "/../srv/./db" "c" = "/srv/db/c".
Proof. reflexivity. Qed.
Example valid_leading_zero : semver.valid "01.0.0" = None.
Proof. reflexivity. Qed.
Example valid_two_parts : semver.valid "1.0" = None.
Proof. reflexivity. Qed.
Example extname_sql : path_extname "migrations/0.0.2-add-views.sql" = ".sql".
Proof. reflexivity. Qed.
Example extname_hidden : path_extname "migrations/.sql" = "".
Proof. reflexivity. Qed.
Example extname_dir : path_extname "migrations/0.0.1-initial-schema" = ".1-initial-schema".
Proof. reflexivity. Qed.
Example match_spec_ok : match_spec "0.0.2-add-views.sql" = Some ("0.0.2", "add-views.sql").
Proof. reflexivity. Qed.


(** ** Paths *)

Lemma append_String (a : string) (c : ascii) (b : string) :
  ((a ++ String c "") ++ b = a ++ String c b)%string.
Proof.
  induction a as [|x a IH]; simpl; [reflexivity | now rewrite IH].
Qed.

Lemma basename_from_plain (s acc : string) :
  has_char is_slash s = false -> basename_from acc s = (acc ++ s)%string.
Proof.
  revert acc; induction s as [|c s IH]; intros acc H; simpl in *.
  - induction acc as [|x acc IHacc]; simpl; [reflexivity | now rewrite <- IHacc].
  - apply orb_false_iff in H as [Hc Hs]. rewrite Hc, (IH _ Hs).
    apply append_String.
Qed.

Lemma basename_from_slash (d s acc : string) :
  basename_from acc (d ++ String "/" s)%string = basename_from "" s.
Proof.
  revert acc; induction d as [|c d IH]; intros acc; simpl.
  - reflexivity.
  - destruct (is_slash c); apply IH.
Qed.

Lemma append_empty (a : string) : (a ++ "")%string = a.
Proof. induction a as [|c a IH]; simpl; [reflexivity | now rewrite IH]. Qed.

Lemma append_associative (a b c : string) :
  ((a ++ b) ++ c)%string = (a ++ (b ++ c))%string.
Proof. induction a as [|x a IH]; simpl; [reflexivity | now rewrite IH]. Qed.

Lemma split_slash_plain (s : string) :
  has_char is_slash s = false -> split_slash s = [s].
Proof.
  induction s as [|c s IH]; simpl; [reflexivity |].
  intros H. apply orb_false_iff in H as [Hc Hs]. now rewrite Hc, (IH Hs).
Qed.

Lemma split_slash_cons (s : string) :
  exists segment segments, split_slash s = segment :: segments.
Proof.
  induction s as [|c s (segment & segments & IH)]; simpl; [now eexists _, _ |].
  destruct (is_slash c); [now eexists _, _ |]. rewrite IH. now eexists _, _.
Qed.

Lemma split_slash_app (d s : string) :
  split_slash (d ++ String "/" s) = (split_slash d ++ split_slash s)%list.
Proof.
  induction d as [|c d IH]; simpl; [reflexivity |].
  destruct (is_slash c); [now rewrite IH |].
  rewrite IH. now destruct (split_slash_cons d) as (segment & segments & ->).
Qed.

(** A last part that is a name stays, whatever comes before it. *)
Lemma normalizeArray_snoc (parts : list string) (name : string) :
  String.eqb name "." = false -> String.eqb name ".." = false ->
  normalizeArray (parts ++ [name])
  = ((fst (normalizeArray parts) ++ [name])%list, snd (normalizeArray parts)).
Proof.
  intros H1 H2. induction parts as [|part parts IH]; simpl.
  - now rewrite H1, H2.
  - rewrite IH. destruct (normalizeArray parts) as [kept up]; simpl.
    destruct (String.eqb part "."); [reflexivity |].
    destruct (String.eqb part ".."); [reflexivity |]. now destruct up.
Qed.

Lemma join_slash_snoc (parts : list string) (name : string) :
  join_slash (parts ++ [name]) = name \/
  exists before, join_slash (parts ++ [name]) = (before ++ String "/" name)%string.
Proof.
  induction parts as [|part parts IH]; [now left |]. right.
  assert (H : join_slash ((part :: parts) ++ [name])
              = (part ++ "/" ++ join_slash (parts ++ [name]))%string).
  { now destruct parts. }
  rewrite H. destruct IH as [-> | (before & ->)].
  - now exists part.
  - exists (part ++ "/" ++ before)%string. now rewrite !append_associative.
Qed.

Lemma last_char_app (a s : string) :
  s <> "" -> last_char (a ++ s) = last_char s.
Proof.
  intros Hs. induction a as [|c a IH]; simpl; [reflexivity |].
  destruct (a ++ s)%string eqn:E; [| exact IH].
  destruct a; [contradiction | discriminate].
Qed.

Lemma last_char_has (p : ascii -> bool) (s : string) (c : ascii) :
  has_char p s = false -> last_char s = Some c -> p c = false.
Proof.
  induction s as [|x s IH]; simpl; [discriminate |].
  intros H. apply orb_false_iff in H as [Hx Hs].
  destruct s; [intros [= <-]; exact Hx | now apply IH].
Qed.

(** A path whose last segment is a name normalizes to a path that ends in
    that name, after a separator or alone. *)
Lemma normalize_ends (p name : string) (parts : list string) :
  filter nonempty (split_slash p) = (parts ++ [name])%list ->
  is_entry_name name = true ->
  last_char p = last_char name ->
  path_normalize p = name \/
  exists before, path_normalize p = (before ++ String "/" name)%string.
Proof.
  intros Hparts Hname Hlast. unfold is_entry_name in Hname.
  apply andb_true_iff in Hname as [Hname Hdd].
  apply andb_true_iff in Hname as [Hname Hd].
  apply andb_true_iff in Hname as [Hs Hne].
  apply negb_true_iff in Hs, Hd, Hdd.
  assert (Hn : name <> "").
  { intros ->. discriminate. }
  unfold path_normalize. rewrite Hparts, (normalizeArray_snoc _ _ Hd Hdd), Hlast.
  destruct (normalizeArray parts) as [kept up]. cbn [fst snd].
  assert (Htrail : match last_char name with
                   | Some c => is_slash c
                   | None => false
                   end = false).
  { destruct (last_char name) as [c|] eqn:E; [| reflexivity].
    exact (last_char_has _ _ _ Hs E). }
  rewrite Htrail, andb_false_r.
  assert (Hjoin : forall front : list string,
    String.eqb (join_slash (front ++ [name])) "" = false /\
    (join_slash (front ++ [name]) = name \/
     exists before, join_slash (front ++ [name]) = (before ++ String "/" name)%string)).
  { intros front. split; [| apply join_slash_snoc].
    apply String.eqb_neq.
    destruct (join_slash_snoc front name) as [-> | (before & ->)]; [exact Hn |].
    destruct before; discriminate. }
  destruct (match p with String c _ => is_slash c | EmptyString => false end); cbn [negb].
  - rewrite andb_false_r. destruct (Hjoin kept) as [_ [-> | (before & ->)]]; right.
    + now exists "".
    + now exists ("/" ++ before)%string.
  - rewrite andb_true_r, app_assoc.
    destruct (Hjoin (repeat ".." up ++ kept)%list) as [-> Hend]. exact Hend.
Qed.

(** The basename of what [list] joined is the directory entry itself. *)
Lemma basename_join (directory name : string) :
  is_entry_name name = true ->
  path_basename (path_join directory name) = name.
Proof.
  intros Hname.
  assert (Hplain : has_char is_slash name = false /\ nonempty name = true).
  { unfold is_entry_name in Hname.
    apply andb_true_iff in Hname as [Hname _]. apply andb_true_iff in Hname as [Hname _].
    apply andb_true_iff in Hname as [Hs Hne]. now apply negb_true_iff in Hs. }
  destruct Hplain as [Hs Hne].
  assert (Hn : name <> "") by (intros ->; discriminate).
  assert (Hend : path_join directory name = name \/
                 exists before, path_join directory name = (before ++ String "/" name)%string).
  { unfold path_join. simpl filter. rewrite Hne.
    destruct (nonempty directory); simpl join_slash.
    - apply (normalize_ends _ name (filter nonempty (split_slash directory))).
      + change (directory ++ "/" ++ name)%string with (directory ++ String "/" name)%string.
        now rewrite split_slash_app, filter_app, (split_slash_plain _ Hs); simpl; rewrite Hne.
      + exact Hname.
      + transitivity (last_char ("/" ++ name)%string).
        * apply last_char_app. discriminate.
        * now apply (last_char_app "/").
    - apply (normalize_ends _ name []); [| exact Hname | reflexivity].
      now rewrite (split_slash_plain _ Hs); simpl; rewrite Hne. }
  unfold path_basename. destruct Hend as [-> | (before & ->)].
  - now apply basename_from_plain.
  - rewrite basename_from_slash. now apply basename_from_plain.
Qed.

(** ** semver *)

Lemma compare_antisym (a b : SemVer) :
  semver.compare a b = CompOpp (semver.compare b a).
Proof.
  unfold semver.compare.
  rewrite (N.compare_antisym (major b) (major a)),
          (N.compare_antisym (minor b) (minor a)),
          (N.compare_antisym (patch b) (patch a)).
  destruct (major b ?= major a)%N, (minor b ?= minor a)%N, (patch b ?= patch a)%N;
    reflexivity.
Qed.

Lemma compare_Eq (a b : SemVer) : semver.compare a b = Eq -> a = b.
Proof.
  destruct a as [a1 a2 a3], b as [b1 b2 b3]; unfold semver.compare; simpl.
  destruct (N.compare_spec a1 b1); try discriminate.
  destruct (N.compare_spec a2 b2); try discriminate.
  destruct (N.compare_spec a3 b3); try discriminate.
  intros _. congruence.
Qed.

(** What [semver.gt] decides, on the three numbers. *)
Lemma gt_spec (a b : SemVer) :
  semver.gt a b = true <->
  (major b < major a \/
   (major a = major b /\ (minor b < minor a \/ (minor a = minor b /\ patch b < patch a))))%N.
Proof.
  unfold semver.gt, semver.compare.
  destruct (N.compare_spec (major a) (major b));
    destruct (N.compare_spec (minor a) (minor b));
    destruct (N.compare_spec (patch a) (patch b));
    split; intros; try discriminate; try reflexivity; lia.
Qed.

(** ** Sorting *)

Lemma strictly_ascendingb_spec (l : list SemVer) :
  strictly_ascendingb l = true <-> strictly_ascending l.
Proof.
  unfold strictly_ascending. induction l as [|a [|b l] IH].
  - split; [constructor | reflexivity].
  - split; [repeat constructor | reflexivity].
  - change (strictly_ascendingb (a :: b :: l))
      with (semver.lt a b && strictly_ascendingb (b :: l)).
    rewrite andb_true_iff, IH. unfold semver.lt. split.
    + intros [H1 H2]. constructor; [exact H2 | constructor].
      unfold strict_step. now destruct (semver.compare a b).
    + intros H. inversion H as [|? ? H2 H1]; subst. inversion H1 as [|? ? H3]; subst.
      unfold strict_step in H3. rewrite H3. now split.
Qed.

Section SortFacts.
Variable A : Type.
Variable cmp : A -> A -> comparison.
Hypothesis cmp_antisym : forall x y, cmp x y = CompOpp (cmp y x).

Let le (x y : A) : Prop := cmp x y <> Gt.

Lemma insert_perm (x : A) (l : list A) : Permutation (x :: l) (insert cmp x l).
Proof.
  induction l as [|y l IH]; simpl; [reflexivity |].
  destruct (cmp x y); try reflexivity.
  rewrite perm_swap. now constructor.
Qed.

Lemma sort_perm (l : list A) : Permutation l (sort cmp l).
Proof.
  induction l as [|x l IH]; simpl; [reflexivity |].
  rewrite <- insert_perm. now constructor.
Qed.

Lemma insert_HdRel (a x : A) (l : list A) :
  le a x -> HdRel le a l -> HdRel le a (insert cmp x l).
Proof.
  intros Hax Hal. destruct l as [|y l]; simpl; [now constructor |].
  inversion Hal; subst. destruct (cmp x y); now constructor.
Qed.

Lemma insert_sorted (x : A) (l : list A) :
  Sorted le l -> Sorted le (insert cmp x l).
Proof.
  induction 1 as [|y l Hs IH Hd]; simpl.
  - repeat constructor.
  - destruct (cmp x y) eqn:E.
    + constructor; [now constructor |]. constructor. unfold le. now rewrite E.
    + constructor; [now constructor |]. constructor. unfold le. now rewrite E.
    + constructor; [exact IH |]. apply insert_HdRel; [| exact Hd].
      unfold le. rewrite cmp_antisym, E. discriminate.
Qed.

Lemma sort_sorted (l : list A) : Sorted le (sort cmp l).
Proof.
  induction l as [|x l IH]; simpl; [constructor | now apply insert_sorted].
Qed.
End SortFacts.

Lemma Sorted_map {A B} (f : A -> B) (R : B -> B -> Prop) (l : list A) :
  Sorted (fun x y => R (f x) (f y)) l -> Sorted R (map f l).
Proof.
  induction 1 as [|x l Hs IH Hd]; simpl; constructor; [exact IH |].
  destruct Hd; simpl; now constructor.
Qed.

Lemma ascending_NoDup_strict (l : list SemVer) :
  ascending l -> NoDup l -> strictly_ascending l.
Proof.
  unfold ascending, strictly_ascending.
  induction 1 as [|a l Hs IH Hd]; intros Hn; [constructor |].
  inversion Hn as [|? ? Hnotin Hn']; subst.
  constructor; [now apply IH |].
  destruct Hd as [|b l Hab]; constructor.
  unfold ascending_step in Hab. unfold strict_step.
  destruct (semver.compare a b) eqn:E; [| reflexivity | congruence].
  apply compare_Eq in E; subst b. exfalso; apply Hnotin; now left.
Qed.

(** ** VersionCatalog *)

Lemma parse_well_named (fs : FileSystem) (spec : string) (m : Migration) :
  VersionCatalog.parseMigrationSpec fs spec = inr (Some m) ->
  path m = spec /\
  exists prefix, match_spec (path_basename spec) = Some (prefix, title m) /\
                 semver.valid prefix = Some (version m).
Proof.
  unfold VersionCatalog.parseMigrationSpec.
  destruct (match_spec (path_basename spec)) as [[prefix rest]|]; [| discriminate].
  destruct (semver.valid prefix) as [v|] eqn:Ev; [| discriminate].
  destruct (statSync fs spec) as [[|]|]; [| | discriminate].
  - destruct (readdirSync fs spec); [| discriminate].
    intros [= <-]; simpl. split; [reflexivity | now exists prefix].
  - destruct (validMigrationType spec); [| discriminate].
    intros [= <-]; simpl. split; [reflexivity | now exists prefix].
Qed.

Lemma parse_ill_named (fs : FileSystem) (spec : string) :
  well_named (path_basename spec) = false ->
  VersionCatalog.parseMigrationSpec fs spec = inr None.
Proof.
  unfold well_named, VersionCatalog.parseMigrationSpec.
  destruct (match_spec (path_basename spec)) as [[prefix rest]|]; [| reflexivity].
  destruct (semver.valid prefix); [discriminate | reflexivity].
Qed.

Lemma map_throwing_In {A B} (f : A -> Exn + B) (l : list A) (ys : list B) (y : B) :
  VersionCatalog.map_throwing f l = inr ys -> In y ys ->
  exists x, In x l /\ f x = inr y.
Proof.
  revert ys; induction l as [|x l IH]; simpl; intros ys.
  - intros [= <-] [].
  - destruct (f x) as [e|y0] eqn:Ex; [discriminate |].
    destruct (VersionCatalog.map_throwing f l) as [e|ys0]; [discriminate |].
    intros [= <-] [<- | Hin].
    + exists x. split; [now left | exact Ex].
    + destruct (IH _ eq_refl Hin) as [x' [Hx' Hf]]. exists x'. split; [now right | exact Hf].
Qed.

Lemma compact_In {A} (l : list (option A)) (x : A) :
  In x (compact l) -> In (Some x) l.
Proof.
  induction l as [|[y|] l IH]; simpl; [tauto | | tauto].
  intros [-> | H]; [now left | right; now apply IH].
Qed.

Lemma map_throwing_all {A B} (f : A -> Exn + B) (l : list A) (ys : list B) (x : A) :
  VersionCatalog.map_throwing f l = inr ys -> In x l ->
  exists y, f x = inr y /\ In y ys.
Proof.
  revert ys; induction l as [|a l IH]; simpl; intros ys; [intros _ [] |].
  destruct (f a) as [e|y0] eqn:Ea; [discriminate |].
  destruct (VersionCatalog.map_throwing f l) as [e|ys0]; [discriminate |].
  intros [= <-] [<- | Hin].
  - exists y0. split; [exact Ea | now left].
  - destruct (IH _ eq_refl Hin) as (y & Hy & Hin'). exists y. split; [exact Hy | now right].
Qed.

Lemma compact_keeps {A} (l : list (option A)) (x : A) :
  In (Some x) l -> In x (compact l).
Proof.
  induction l as [|[y|] l IH]; simpl; [tauto | | ].
  - intros [[= ->] | H]; [now left | right; now apply IH].
  - intros [H | H]; [discriminate | now apply IH].
Qed.

(** Every unit [list] returns was parsed from an entry of the directory. *)
Lemma list_origin (fs : FileSystem) (directory : string) (names : list string)
    (ms : list Migration) (m : Migration) :
  readdirSync fs (or_dot directory) = Some names ->
  VersionCatalog.list fs directory = inr ms ->
  In m ms ->
  exists name, In name names /\
               VersionCatalog.parseMigrationSpec fs (path_join directory name) = inr (Some m).
Proof.
  unfold VersionCatalog.list. intros -> H Hin.
  destruct (VersionCatalog.map_throwing _ _) as [e|parsed] eqn:E; [discriminate |].
  injection H as <-.
  apply (Permutation_in _ (Permutation_sym (sort_perm _ _ _))) in Hin.
  apply compact_In in Hin.
  destruct (map_throwing_In _ _ _ _ E Hin) as [spec [Hspec Hparse]].
  apply in_map_iff in Hspec as [name [<- Hname]].
  now exists name.
Qed.

(** Every unit an entry of the directory parses to is in what [list]
    returns. *)
Lemma list_keeps (fs : FileSystem) (directory : string) (names : list string)
    (ms : list Migration) (name : string) (m : Migration) :
  readdirSync fs (or_dot directory) = Some names ->
  VersionCatalog.list fs directory = inr ms ->
  In name names ->
  VersionCatalog.parseMigrationSpec fs (path_join directory name) = inr (Some m) ->
  In m ms.
Proof.
  unfold VersionCatalog.list. intros -> Hlist Hname Hparse.
  destruct (VersionCatalog.map_throwing _ _) as [e|parsed] eqn:E; [discriminate |].
  injection Hlist as <-.
  apply (Permutation_in _ (sort_perm _ _ _)). apply compact_keeps.
  destruct (map_throwing_all _ _ _ (path_join directory name) E) as (y & Hy & Hin).
  - apply in_map_iff. now exists name.
  - rewrite Hparse in Hy. now injection Hy as <-.
Qed.

(** C8 (as amended): for every directory, the sequence [list] returns is
    sorted ascending by semantic-version comparison, strictly so whenever no
    two of its units carry the same version; every unit in it comes from a
    directory entry named by a valid semantic version, a hyphen and the
    unit's title; a directory entry that is not so named is absent from it;
    and every unit an entry parses to is in it, entries of one and the same
    version included: the sequence is a rearrangement of the units parsed,
    none dropped and none added.  (The entries are file names, as
    [readdirSync] gives them.) *)
Theorem list_ascending_and_well_named (fs : FileSystem) (directory : string)
    (names : list string) (ms : list Migration) :
  readdirSync fs (or_dot directory) = Some names ->
  forallb is_entry_name names = true ->
  VersionCatalog.list fs directory = inr ms ->
  ascending (map version ms) /\
  (NoDup (map version ms) -> strictly_ascending (map version ms)) /\
  (forall m, In m ms ->
     exists name prefix,
       In name names /\ path m = path_join directory name /\
       match_spec name = Some (prefix, title m) /\
       semver.valid prefix = Some (version m)) /\
  (forall name, In name names -> well_named name = false ->
     forall m, In m ms -> path m <> path_join directory name) /\
  (forall name m, In name names ->
     VersionCatalog.parseMigrationSpec fs (path_join directory name) = inr (Some m) ->
     In m ms) /\
  (exists parsed,
     VersionCatalog.map_throwing (VersionCatalog.parseMigrationSpec fs)
       (map (path_join directory) names) = inr parsed /\
     Permutation (compact parsed) ms).
Proof.
  intros Hdir Hnames Hlist.
  assert (Hplain : forall name, In name names -> is_entry_name name = true).
  { intros name Hin. rewrite forallb_forall in Hnames. now apply Hnames. }
  assert (Hasc : ascending (map version ms)).
  { unfold VersionCatalog.list in Hlist. rewrite Hdir in Hlist.
    destruct (VersionCatalog.map_throwing _ _) as [e|parsed]; [discriminate |].
    injection Hlist as <-. apply Sorted_map.
    apply (sort_sorted _ VersionCatalog.compare_migrations).
    intros x y. apply compare_antisym. }
  assert (Hfrom : forall m, In m ms ->
     exists name prefix,
       In name names /\ path m = path_join directory name /\
       match_spec name = Some (prefix, title m) /\
       semver.valid prefix = Some (version m)).
  { intros m Hin.
    destruct (list_origin _ _ _ _ _ Hdir Hlist Hin) as [name [Hname Hparse]].
    destruct (parse_well_named _ _ _ Hparse) as [Hpath [prefix [Hm Hv]]].
    rewrite (basename_join _ _ (Hplain _ Hname)) in Hm.
    now exists name, prefix. }
  split; [exact Hasc |]. split; [now apply ascending_NoDup_strict |].
  split; [exact Hfrom |]. split; [| split].
  - intros name Hname Hbad m Hin Hpath.
    destruct (Hfrom m Hin) as [name' [prefix [Hname' [Hpath' [Hm Hv]]]]].
    assert (name' = name).
    { rewrite <- (basename_join directory name' (Hplain _ Hname')),
              <- (basename_join directory name (Hplain _ Hname)).
      congruence. }
    subst name'. unfold well_named in Hbad. rewrite Hm, Hv in Hbad. discriminate.
  - intros name m Hname Hparse. exact (list_keeps _ _ _ _ _ _ Hdir Hlist Hname Hparse).
  - unfold VersionCatalog.list in Hlist. rewrite Hdir in Hlist.
    destruct (VersionCatalog.map_throwing _ _) as [e|parsed]; [discriminate |].
    injection Hlist as <-. exists parsed. split; [reflexivity | apply sort_perm].
Qed.

(** ** Traces *)

Create HintDb keeps.

(** A property of traces that holds of every piece a computation is made of
    holds of the whole computation.  Each lemma asks only for the pieces its
    function can produce. *)
Section TraceInvariant.
Local Open Scope list_scope.
Context {DB : Type}.
Variable pg_connect : string -> DB -> option Exn.
Variable client_query : Statement -> DB -> (Exn + Rows) * DB.
Variable fs : FileSystem.
Variable require_ : string -> DB -> Completion * DB.

Variable P : list Event -> Prop.
Hypothesis P_nil : P [].
Hypothesis P_app : forall a b, P a -> P b -> P (a ++ b).
Hypothesis P_out : forall o, is_migration_output o = false -> P [Stdout o].
Hypothesis P_migration : forall id title line, P [Stdout (report_migration id title line)].
Hypothesis P_plain : forall text ok,
  P [Issue (mkStatement text []); Complete (mkStatement text []) ok].
Hypothesis P_insert : forall v ok,
  P [Issue (mkStatement INSERT_VERSION [v]); Complete (mkStatement INSERT_VERSION [v]) ok].
Hypothesis P_invoke : forall filename, P [Invoke filename].
Hypothesis P_callback : forall a, P [Callback a].
Hypothesis P_pair : forall s1 s2 ok1 ok2, together s1 s2 ->
  P [Issue (mkStatement s1 []); Issue (mkStatement s2 []);
     Complete (mkStatement s1 []) ok1; Complete (mkStatement s2 []) ok2].
Hypothesis P_pair_open : forall s1 s2, together s1 s2 ->
  P [Issue (mkStatement s1 []); Issue (mkStatement s2 []);
     Complete (mkStatement s1 []) false].

Local Abbreviation keeps_ := (@keeps DB P _).

Lemma snd_caught {A} (r : Outcome A * DB * list Event) : snd (caught r) = snd r.
Proof. destruct r as [[[] ?] ?]; reflexivity. Qed.

Lemma keeps_Q {A} (a : A) : keeps_ (Q_ a).
Proof. intros db; exact P_nil. Qed.

Lemma keeps_reject {A} (e : Exn) : keeps_ (@reject DB A e).
Proof. intros db; exact P_nil. Qed.

Lemma keeps_throw {A} (e : Exn) : keeps_ (@throw DB A e).
Proof. intros db; exact P_nil. Qed.

Lemma keeps_say {A} (o : Output) (m : @Task DB A) :
  P [Stdout o] -> keeps_ m -> keeps_ (say o m).
Proof.
  intros Ho H db. unfold say. specialize (H db).
  destruct (m db) as [[r db'] t]; simpl in *.
  now apply (P_app [Stdout o] t).
Qed.

Lemma keeps_say_if {A} (c : bool) (o : Output) (m : @Task DB A) :
  P [Stdout o] -> keeps_ m -> keeps_ (say_if c o m).
Proof. destruct c; simpl; [apply keeps_say | trivial]. Qed.

Lemma keeps_bind {A B} (p : @Task DB A) (rest : A -> @Task DB B) :
  keeps_ p -> (forall a, keeps_ (rest a)) -> keeps_ (bind p rest).
Proof.
  intros Hp Hr db. unfold bind. specialize (Hp db).
  destruct (p db) as [[[a|e|e|e] db1] t1]; simpl in *; trivial.
  specialize (Hr a db1). destruct (rest a db1) as [[o db2] t2]; simpl in *.
  now apply P_app.
Qed.

Lemma keeps_then {A B} (p : @Task DB A) (f : A -> @Task DB B) :
  keeps_ p -> (forall a, keeps_ (f a)) -> keeps_ (then_ p f).
Proof.
  intros Hp Hf. apply keeps_bind; [exact Hp |].
  intros a db. rewrite snd_caught. apply Hf.
Qed.

Lemma keeps_then2 {A B} (p : @Task DB A) (f : A -> @Task DB B) (g : Exn -> @Task DB B) :
  keeps_ p -> (forall a, keeps_ (f a)) -> (forall e, keeps_ (g e)) -> keeps_ (then2 p f g).
Proof.
  intros Hp Hf Hg db. unfold then2. specialize (Hp db).
  destruct (p db) as [[[a|e|e|e] db1] t1]; simpl in *; trivial.
  - specialize (Hf a db1). rewrite <- snd_caught in Hf.
    destruct (caught (f a db1)) as [[o db2] t2]; simpl in *. now apply P_app.
  - specialize (Hg e db1). rewrite <- snd_caught in Hg.
    destruct (caught (g e db1)) as [[o db2] t2]; simpl in *. now apply P_app.
Qed.

Lemma keeps_thenResolve {A B} (p : @Task DB A) (b : B) :
  keeps_ p -> keeps_ (thenResolve p b).
Proof. intros Hp. apply keeps_then; [exact Hp | intros; apply keeps_Q]. Qed.

Lemma keeps_in_tick {A} (m : @Task DB A) : keeps_ m -> keeps_ (in_tick m).
Proof.
  intros H db. unfold in_tick. specialize (H db).
  destruct (m db) as [[[] ?] ?]; exact H.
Qed.

Lemma keeps_void {A} (m : @Task DB A) : keeps_ m -> keeps_ (void m).
Proof.
  intros H db. unfold void. specialize (H db).
  destruct (m db) as [[[] ?] ?]; exact H.
Qed.

Lemma keeps_callback (arguments : list (option Exn)) : keeps_ (@callback DB arguments).
Proof. intros db. apply P_callback. Qed.

Lemma keeps_fin {A} (p : @Task DB A) (bound unused : list (option Exn)) :
  keeps_ p ->
  keeps_ (fin p (bind_args callback bound) (bind_args callback unused)).
Proof.
  intros Hp. unfold fin. apply keeps_then2; [exact Hp | |]; intros;
    (apply keeps_then;
     [apply keeps_callback | intros; first [apply keeps_Q | apply keeps_reject]]).
Qed.

Lemma keeps_plain_query (conn : Connection) (statement : string) :
  keeps_ (query client_query conn statement []).
Proof.
  intros db. unfold query. destruct (client_query _ db) as [r db']. apply P_plain.
Qed.

Lemma keeps_insert_query (conn : Connection) (v : SemVer) :
  keeps_ (query client_query conn INSERT_VERSION [v]).
Proof.
  intros db. unfold query. destruct (client_query _ db) as [r db']. apply P_insert.
Qed.

Lemma keeps_Q_all (conn : Connection) (s1 s2 : string) :
  together s1 s2 -> keeps_ (Q_all_query client_query conn [s1; s2]).
Proof.
  intros H db. unfold Q_all_query; simpl.
  destruct (client_query _ db) as [[e1|rows1] db1]; simpl; [now apply P_pair_open |].
  destruct (client_query _ db1) as [[e2|rows2] db2]; simpl; now apply P_pair.
Qed.

Lemma keeps_required (filename : string) (conn : Connection) :
  keeps_ (required require_ filename conn).
Proof.
  intros db. unfold required. destruct (require_ filename db) as [c db']. apply P_invoke.
Qed.

Lemma keeps_qMapSerial {X} (array : list X) (func : X -> @Task DB unit) :
  (forall x, keeps_ (func x)) -> keeps_ (qMapSerial array func).
Proof.
  intros Hf. unfold qMapSerial.
  assert (H : forall acc, keeps_ acc ->
    keeps_ (fold_left (fun last x => then_ last (fun _ => func x)) array acc)).
  { induction array as [|x array IH]; intros acc Hacc; simpl; [exact Hacc |].
    apply IH. apply keeps_then; [exact Hacc | intros; apply Hf]. }
  apply H, keeps_Q.
Qed.

Local Hint Resolve keeps_Q keeps_reject keeps_throw keeps_thenResolve keeps_in_tick
  keeps_void keeps_plain_query keeps_insert_query keeps_required keeps_callback : keeps.
Local Hint Extern 1 (P [Stdout _]) => (apply P_out; reflexivity) : keeps.
Local Hint Extern 2 (keeps_ (say _ _)) => apply keeps_say : keeps.
Local Hint Extern 2 (keeps_ (say_if _ _ _)) => apply keeps_say_if : keeps.

Lemma keeps_runStep (filename : string) (conn : Connection) (verbose : bool) :
  keeps_ (runStep client_query fs require_ filename conn verbose).
Proof.
  unfold runStep. apply keeps_say_if; [auto with keeps |].
  apply keeps_then; [| auto with keeps].
  destruct (String.eqb (path_extname filename) ".sql").
  - destruct (readFileSync fs filename); auto with keeps.
  - destruct (String.eqb (path_extname filename) ".js"); auto with keeps.
Qed.

Lemma keeps_steps (migration : Migration) (conn : Connection) :
  keeps_ (steps client_query fs require_ migration conn).
Proof.
  unfold steps. destruct (multiple migration).
  - apply keeps_qMapSerial. intros; apply keeps_runStep.
  - apply keeps_runStep.
Qed.

Lemma keeps_run (migration : Migration) (conn : Connection) :
  keeps_ (run client_query fs require_ migration conn).
Proof.
  unfold run. apply keeps_then; [apply keeps_steps | auto with keeps].
Qed.

Lemma keeps_resume (migrations : list Migration) (conn : Connection) :
  keeps_ (resume client_query fs require_ migrations conn).
Proof.
  induction migrations as [|migration rest IH]; simpl; [auto with keeps |].
  apply keeps_in_tick, keeps_say; [apply P_migration |].
  apply keeps_say_if; [auto with keeps |].
  apply keeps_bind; [apply keeps_run |].
  intros _. apply keeps_say_if; [auto with keeps | exact IH].
Qed.

Lemma keeps_connect (database : string) :
  keeps_ (connect pg_connect client_query database).
Proof.
  unfold connect. apply keeps_say; [auto with keeps |]. intros db.
  destruct (pg_connect database db); [exact P_nil |].
  apply keeps_bind; auto with keeps.
Qed.

Lemma keeps_initialize (conn : Connection) : keeps_ (initialize client_query conn).
Proof.
  unfold initialize. apply keeps_say; [auto with keeps |].
  apply keeps_thenResolve, keeps_then.
  - apply keeps_Q_all. now left.
  - auto with keeps.
Qed.

Lemma keeps_detect (quiet : bool) (conn : Connection) :
  keeps_ (detect client_query quiet conn).
Proof.
  unfold detect. apply keeps_then; [auto with keeps |].
  intros result. destruct (semver.maxSatisfying result); auto with keeps.
Qed.

Lemma keeps_migrate (migrations : list Migration) (conn : Connection) :
  keeps_ (migrate client_query fs require_ migrations conn).
Proof.
  unfold migrate. apply keeps_then.
  - apply keeps_then2; [apply keeps_detect | auto with keeps |].
    intros _. apply keeps_then; [| auto with keeps].
    apply keeps_Q_all. now right.
  - intros version. destruct (_filter (is_pending version) migrations).
    + auto with keeps.
    + apply keeps_say_if; [auto with keeps | apply keeps_resume].
Qed.

Lemma keeps_load (scripts : list string) (conn : Connection) :
  keeps_ (load client_query fs scripts conn).
Proof.
  unfold load. apply keeps_thenResolve, keeps_qMapSerial.
  intros filename. destruct (readFileSync fs filename); [| auto with keeps].
  apply keeps_say; [auto with keeps |]. apply keeps_then; auto with keeps.
Qed.

Lemma keeps_check (lastMigration : option SemVer) (conn : Connection) :
  keeps_ (check client_query lastMigration conn).
Proof.
  unfold check. apply keeps_then; [apply keeps_detect |].
  intros [v|]; (apply keeps_say; [auto with keeps |]); [| auto with keeps].
  destruct (semver_gt (js_of lastMigration) (js_string v)) as [e|[|]];
    destruct lastMigration as [target|]; auto with keeps.
  destruct (semver.eq target v); [auto with keeps |].
  destruct (semver.satisfies_caret v target); auto with keeps.
Qed.

Lemma keeps_reset (conn : Connection) : keeps_ (reset client_query conn).
Proof.
  unfold reset. apply keeps_say; [auto with keeps |]. apply keeps_then; auto with keeps.
Qed.

Lemma keeps_finish (conn : Connection) : keeps_ (finish client_query conn).
Proof. unfold finish. auto with keeps. Qed.

Lemma keeps_reverting (conn : Connection) : keeps_ (@reverting DB conn).
Proof. unfold reverting. auto with keeps. Qed.

Lemma keeps_loaded (config : Config) (migrations : list Migration) :
  keeps_ (loaded pg_connect client_query fs require_ config migrations).
Proof.
  unfold loaded. repeat apply keeps_then.
  - apply keeps_connect.
  - apply keeps_initialize.
  - intros conn. destruct (reset_option config); [apply keeps_reset | apply keeps_Q].
  - intros conn. destruct (migrate_option config); [apply keeps_migrate | apply keeps_Q].
  - apply keeps_load.
Qed.

Lemma keeps_chain (config : Config) (migrations : list Migration) :
  keeps_ (chain pg_connect client_query fs require_ config migrations).
Proof.
  unfold chain. apply keeps_then; [apply keeps_then |].
  - apply keeps_loaded.
  - intros conn. destruct (dry_run config); [apply keeps_reverting | apply keeps_finish].
  - apply keeps_check.
Qed.

(** Every run of [semigrate] keeps_ the property. *)
Lemma keeps_semigrate (config : option Config) :
  keeps_ (semigrate pg_connect client_query fs require_ config).
Proof.
  destruct config as [config|]; simpl; [| apply keeps_throw].
  destruct (VersionCatalog.list fs (directory_or_dot config)); [apply keeps_throw |].
  apply keeps_fin, keeps_chain.
Qed.
End TraceInvariant.

(** ** Release, callback and sequencing *)

Lemma releases_app (a b : list Event) : releases (a ++ b) = releases a + releases b.
Proof.
  induction a as [|e a IH]; simpl; [reflexivity |].
  destruct e; simpl; now rewrite IH.
Qed.

Lemma no_release_before_callback (t : list Event) :
  releases t = 0 -> forall n, releases_before_callback t = Some n -> n = 0.
Proof.
  induction t as [|e t IH]; simpl; [discriminate |].
  destruct e; try exact IH.
  - discriminate.
  - intros _ n [= <-]. reflexivity.
Qed.



(** C1 (as amended): on every run of [semigrate], whichever way it ends, the
    connection is never released: the release function pg handed over is
    kept in the session and not called, so no release precedes the terminal
    callback. *)
Theorem semigrate_never_releases {DB : Type}
    (pg_connect : string -> DB -> option Exn)
    (client_query : Statement -> DB -> (Exn + Rows) * DB)
    (fs : FileSystem) (require_ : string -> DB -> Completion * DB)
    (config : option Config) (db : DB) :
  let t := snd (semigrate pg_connect client_query fs require_ config db) in
  releases t = 0 /\ forall n, releases_before_callback t = Some n -> n = 0.
Proof.
  assert (H : releases (snd (semigrate pg_connect client_query fs require_ config db)) = 0).
  { apply (keeps_semigrate pg_connect client_query fs require_ (fun t => releases t = 0));
      try reflexivity.
    intros a b Ha Hb. rewrite releases_app. lia. }
  split; [exact H | now apply no_release_before_callback].
Qed.

(** C10: called without a configuration, [semigrate] throws a TypeError at
    once: nothing has happened by then, no connection was asked for and the
    completion callback was not called; the line that would default the
    configuration is never reached. *)
Theorem semigrate_without_config {DB : Type}
    (pg_connect : string -> DB -> option Exn)
    (client_query : Statement -> DB -> (Exn + Rows) * DB)
    (fs : FileSystem) (require_ : string -> DB -> Completion * DB) (db : DB) :
  exists message,
    semigrate pg_connect client_query fs require_ None db
    = (Thrown (TypeError message), db, []).
Proof.
  eexists. reflexivity.
Qed.

(** ** Promise plumbing *)

Section Plumbing.
Local Open Scope list_scope.
Context {DB : Type}.

Lemma then_resolved {A B} (p : @Task DB A) (f : A -> @Task DB B) (db db1 : DB)
    (a : A) (t1 : list Event) :
  p db = (Resolved a, db1, t1) ->
  then_ p f db = (let '(o, db2, t2) := caught (f a db1) in (o, db2, t1 ++ t2)).
Proof. intros H. unfold then_, bind. now rewrite H. Qed.

Lemma then_resolved_inv {A B} (p : @Task DB A) (f : A -> @Task DB B) (db db2 : DB)
    (b : B) (t : list Event) :
  then_ p f db = (Resolved b, db2, t) ->
  exists a db1 t1 t2,
    p db = (Resolved a, db1, t1) /\ f a db1 = (Resolved b, db2, t2) /\ t = t1 ++ t2.
Proof.
  unfold then_, bind. destruct (p db) as [[[a|e|e|e] db1] t1]; try discriminate.
  destruct (f a db1) as [[[b'|e|e|e] db2'] t2] eqn:E; simpl; try discriminate.
  intros [= -> -> <-]. now exists a, db1, t1, t2.
Qed.

End Plumbing.

(** ** Detection and verification *)

Section Verification.
Local Open Scope list_scope.
Context {DB : Type}.
Variable client_query : Statement -> DB -> (Exn + Rows) * DB.

Lemma detect_returns (quiet : bool) (conn : Connection) (db db' : DB) (rows : Rows) :
  client_query SELECT db = (inr rows, db') ->
  detect client_query quiet conn db
  = (Resolved (semver.maxSatisfying rows), db',
     [Issue SELECT; Complete SELECT true]
       ++ current_version_report quiet (semver.maxSatisfying rows)).
Proof.
  intros H. unfold detect.
  rewrite (then_resolved _ _ db db' rows [Issue SELECT; Complete SELECT true]).
  - unfold current_version_report.
    destruct (semver.maxSatisfying rows); [destruct quiet |]; reflexivity.
  - unfold query. fold SELECT. now rewrite H.
Qed.

Lemma detect_fails (quiet : bool) (conn : Connection) (db db' : DB) (e : Exn) :
  client_query SELECT db = (inl e, db') ->
  detect client_query quiet conn db = (Rejected e, db', [Issue SELECT; Complete SELECT false]).
Proof.
  intros H. unfold detect, then_, bind, query. fold SELECT. now rewrite H.
Qed.
End Verification.

Ltac semver_cases :=
  repeat match goal with
    | |- context [N.compare ?a ?b] => destruct (N.compare_spec a b)
    | |- context [N.eqb ?a ?b] => destruct (N.eqb_spec a b)
    | H : context [N.compare ?a ?b] |- _ => destruct (N.compare_spec a b)
    end;
  simpl in *; try discriminate; try reflexivity; try lia.




(** ** Database, outcome and trace together *)

Create HintDb upholds.

(** The counterpart of [keeps] for a property that also looks at the
    database before and after and at whether the promise resolved: when it
    holds of the pieces a computation is made of, it holds of the
    computation.  A rejection handler runs on what a failed promise left
    behind, so the two places with one, the recovery of [migrate] and the
    callback of [fin], have their own hypotheses. *)
Section RunInvariant.
Local Open Scope list_scope.
Context {DB : Type}.
Variable pg_connect : string -> DB -> option Exn.
Variable client_query : Statement -> DB -> (Exn + Rows) * DB.
Variable fs : FileSystem.
Variable require_ : string -> DB -> Completion * DB.

Variable G : DB -> bool -> DB -> list Event -> Prop.
Hypothesis G_nil : forall db resolved, G db resolved db [].
Hypothesis G_then : forall db db1 db2 resolved t1 t2,
  G db true db1 t1 -> G db1 resolved db2 t2 -> G db resolved db2 (t1 ++ t2).
Hypothesis G_out : forall db o, G db true db [Stdout o].
Hypothesis G_callback : forall db db1 resolved t a,
  G db resolved db1 t -> G db resolved db1 (t ++ [Callback a]).
Hypothesis G_engine : forall conn text, In text [BEGIN; SELECT_VERSION; DELETE_ALL] ->
  upholds G (query client_query conn text []).
Hypothesis G_script : forall conn filename content,
  readFileSync fs filename = Some content ->
  upholds G (query client_query conn content []).
Hypothesis G_commit : forall conn, upholds G (query client_query conn COMMIT []).
Hypothesis G_insert : forall conn v, upholds G (query client_query conn INSERT_VERSION [v]).
Hypothesis G_invoke : forall filename conn, upholds G (required require_ filename conn).
Hypothesis G_pair : forall conn s1 s2, together s1 s2 ->
  upholds G (Q_all_query client_query conn [s1; s2]).
Hypothesis G_retry : forall db db1 db2 e resolved t2,
  client_query SELECT db = (inl e, db1) -> G db1 resolved db2 t2 ->
  G db resolved db2 ([Issue SELECT; Complete SELECT false] ++ t2).

Local Abbreviation upholds_ := (@upholds DB G _).

Lemma upholds_Q {A} (a : A) : upholds_ (Q_ a).
Proof. intros db. apply G_nil. Qed.

Lemma upholds_reject {A} (e : Exn) : upholds_ (@reject DB A e).
Proof. intros db. apply G_nil. Qed.

Lemma upholds_throw {A} (e : Exn) : upholds_ (@throw DB A e).
Proof. intros db. apply G_nil. Qed.

Lemma upholds_say {A} (o : Output) (m : @Task DB A) : upholds_ m -> upholds_ (say o m).
Proof.
  intros H db. unfold say. specialize (H db).
  destruct (m db) as [[r db'] t]; simpl in *.
  apply (G_then db db db' _ [Stdout o] t); [apply G_out | exact H].
Qed.

Lemma upholds_say_if {A} (c : bool) (o : Output) (m : @Task DB A) :
  upholds_ m -> upholds_ (say_if c o m).
Proof. destruct c; simpl; [apply upholds_say | trivial]. Qed.

Lemma upholds_bind {A B} (p : @Task DB A) (rest : A -> @Task DB B) :
  upholds_ p -> (forall a, upholds_ (rest a)) -> upholds_ (bind p rest).
Proof.
  intros Hp Hr db. unfold bind. specialize (Hp db).
  destruct (p db) as [[[a|e|e|e] db1] t1]; simpl in *; trivial.
  specialize (Hr a db1). destruct (rest a db1) as [[o db2] t2]; simpl in *.
  now apply (G_then db db1 db2).
Qed.

Lemma upholds_caught {A} (m : @Task DB A) : upholds_ m -> upholds_ (fun db => caught (m db)).
Proof.
  intros H db. specialize (H db). destruct (m db) as [[[] ?] ?]; exact H.
Qed.

Lemma upholds_then {A B} (p : @Task DB A) (f : A -> @Task DB B) :
  upholds_ p -> (forall a, upholds_ (f a)) -> upholds_ (then_ p f).
Proof.
  intros Hp Hf. apply upholds_bind; [exact Hp |].
  intros a. apply (upholds_caught (f a)), Hf.
Qed.

(** [then] with a rejection handler: the handler answers for what it adds
    to a promise that was rejected. *)
Lemma upholds_then2 {A B} (p : @Task DB A) (f : A -> @Task DB B) (g : Exn -> @Task DB B) :
  upholds_ p -> (forall a, upholds_ (f a)) ->
  (forall db e db1 t1, p db = (Rejected e, db1, t1) -> G db false db1 t1 ->
     G db (is_resolved (fst (fst (caught (g e db1))))) (snd (fst (caught (g e db1))))
       (t1 ++ snd (caught (g e db1)))) ->
  upholds_ (then2 p f g).
Proof.
  intros Hp Hf Hg db. unfold then2. specialize (Hp db).
  destruct (p db) as [[[a|e|e|e] db1] t1] eqn:E; simpl in *; trivial.
  - pose proof (upholds_caught (f a) (Hf a) db1) as H. simpl in H.
    destruct (caught (f a db1)) as [[o db2] t2]; simpl in *.
    now apply (G_then db db1 db2).
  - specialize (Hg db e db1 t1 E Hp).
    destruct (caught (g e db1)) as [[o db2] t2]; exact Hg.
Qed.

Lemma upholds_thenResolve {A B} (p : @Task DB A) (b : B) :
  upholds_ p -> upholds_ (thenResolve p b).
Proof. intros Hp. apply upholds_then; [exact Hp | intros; apply upholds_Q]. Qed.

Lemma upholds_in_tick {A} (m : @Task DB A) : upholds_ m -> upholds_ (in_tick m).
Proof.
  intros H db. unfold in_tick. specialize (H db).
  destruct (m db) as [[[] ?] ?]; exact H.
Qed.

Lemma upholds_void {A} (m : @Task DB A) : upholds_ m -> upholds_ (void m).
Proof.
  intros H db. unfold void. specialize (H db).
  destruct (m db) as [[[] ?] ?]; exact H.
Qed.

Lemma upholds_fin {A} (p : @Task DB A) (bound unused : list (option Exn)) :
  upholds_ p ->
  upholds_ (fin p (bind_args callback bound) (bind_args callback unused)).
Proof.
  intros Hp db. unfold fin, then2. specialize (Hp db).
  destruct (p db) as [[[a|e|e|e] db1] t1]; simpl in *; trivial; now apply G_callback.
Qed.

Lemma upholds_qMapSerial {X} (array : list X) (func : X -> @Task DB unit) :
  (forall x, upholds_ (func x)) -> upholds_ (qMapSerial array func).
Proof.
  intros Hf. unfold qMapSerial.
  assert (H : forall acc, upholds_ acc ->
    upholds_ (fold_left (fun last x => then_ last (fun _ => func x)) array acc)).
  { induction array as [|x array IH]; intros acc Hacc; simpl; [exact Hacc |].
    apply IH. apply upholds_then; [exact Hacc | intros; apply Hf]. }
  apply H, upholds_Q.
Qed.

Local Hint Resolve upholds_Q upholds_reject upholds_throw upholds_thenResolve
  upholds_in_tick upholds_void upholds_say upholds_say_if G_insert G_invoke G_commit
  : upholds.

Lemma upholds_runStep (filename : string) (conn : Connection) (verbose : bool) :
  upholds_ (runStep client_query fs require_ filename conn verbose).
Proof.
  unfold runStep. apply upholds_say_if, upholds_then; [| auto with upholds].
  destruct (String.eqb (path_extname filename) ".sql").
  - destruct (readFileSync fs filename) as [script|] eqn:Hread; [| auto with upholds].
    apply upholds_void. exact (G_script conn filename script Hread).
  - destruct (String.eqb (path_extname filename) ".js"); auto with upholds.
Qed.

Lemma upholds_steps (migration : Migration) (conn : Connection) :
  upholds_ (steps client_query fs require_ migration conn).
Proof.
  unfold steps. destruct (multiple migration).
  - apply upholds_qMapSerial. intros; apply upholds_runStep.
  - apply upholds_runStep.
Qed.

Lemma upholds_run (migration : Migration) (conn : Connection) :
  upholds_ (run client_query fs require_ migration conn).
Proof.
  unfold run. apply upholds_then; [apply upholds_steps | auto with upholds].
Qed.

Lemma upholds_resume (migrations : list Migration) (conn : Connection) :
  upholds_ (resume client_query fs require_ migrations conn).
Proof.
  induction migrations as [|migration rest IH]; simpl; [auto with upholds |].
  apply upholds_in_tick, upholds_say, upholds_say_if.
  apply upholds_bind; [apply upholds_run |].
  intros _. apply upholds_say_if. exact IH.
Qed.

Lemma upholds_connect (database : string) :
  upholds_ (connect pg_connect client_query database).
Proof.
  unfold connect. apply upholds_say. intros db. cbv beta.
  destruct (pg_connect database db) as [err|]; [apply G_nil |].
  refine (upholds_bind (query client_query (mkConnection database [Release]) BEGIN [])
            (fun _ => Q_ (mkConnection database [Release])) _ _ db).
  - apply G_engine. now left.
  - intros; apply upholds_Q.
Qed.

Lemma upholds_initialize (conn : Connection) : upholds_ (initialize client_query conn).
Proof.
  unfold initialize. apply upholds_say, upholds_thenResolve, upholds_then.
  - apply G_pair. now left.
  - auto with upholds.
Qed.

Lemma upholds_detect (quiet : bool) (conn : Connection) :
  upholds_ (detect client_query quiet conn).
Proof.
  unfold detect. apply upholds_then.
  - apply G_engine. right. now left.
  - intros result. destruct (semver.maxSatisfying result); auto with upholds.
Qed.

Lemma upholds_migrate (migrations : list Migration) (conn : Connection) :
  upholds_ (migrate client_query fs require_ migrations conn).
Proof.
  unfold migrate. apply upholds_then.
  - apply upholds_then2; [apply upholds_detect | auto with upholds |].
    intros db e db1 t1 Hdetect _.
    assert (Hq : client_query SELECT db = (inl e, db1)
                 /\ t1 = [Issue SELECT; Complete SELECT false]).
    { destruct (client_query SELECT db) as [[e0|rows] db0] eqn:Hq.
      - rewrite (detect_fails client_query false conn db db0 e0 Hq) in Hdetect.
        now injection Hdetect as -> -> <-.
      - rewrite (detect_returns client_query false conn db db0 rows Hq) in Hdetect.
        discriminate. }
    destruct Hq as [Hq ->].
    apply (G_retry db db1 _ e _ _ Hq).
    apply (upholds_caught
             (then_ (Q_all_query client_query conn [ROLLBACK; BEGIN])
                (fun results => Q_ (js_array results)))).
    apply upholds_then; [| auto with upholds]. apply G_pair. now right.
  - intros version. destruct (_filter (is_pending version) migrations).
    + auto with upholds.
    + apply upholds_say_if, upholds_resume.
Qed.

Lemma upholds_load (scripts : list string) (conn : Connection) :
  upholds_ (load client_query fs scripts conn).
Proof.
  unfold load. apply upholds_thenResolve, upholds_qMapSerial.
  intros filename.
  destruct (readFileSync fs filename) as [content|] eqn:Hread; [| auto with upholds].
  apply upholds_say, upholds_then; [| auto with upholds].
  exact (G_script conn filename content Hread).
Qed.

Lemma upholds_check (lastMigration : option SemVer) (conn : Connection) :
  upholds_ (check client_query lastMigration conn).
Proof.
  unfold check. apply upholds_then; [apply upholds_detect |].
  intros [v|]; apply upholds_say; [| auto with upholds].
  destruct (semver_gt (js_of lastMigration) (js_string v)) as [e|[|]];
    destruct lastMigration as [target|]; auto with upholds.
  destruct (semver.eq target v); [auto with upholds |].
  destruct (semver.satisfies_caret v target); auto with upholds.
Qed.

Lemma upholds_reset (conn : Connection) : upholds_ (reset client_query conn).
Proof.
  unfold reset. apply upholds_say, upholds_then; [| auto with upholds].
  apply G_engine. right. right. now left.
Qed.


Lemma upholds_reverting (conn : Connection) : upholds_ (@reverting DB conn).
Proof. unfold reverting. auto with upholds. Qed.

Lemma upholds_loaded (config : Config) (migrations : list Migration) :
  upholds_ (loaded pg_connect client_query fs require_ config migrations).
Proof.
  unfold loaded. repeat apply upholds_then.
  - apply upholds_connect.
  - apply upholds_initialize.
  - intros conn. destruct (reset_option config); [apply upholds_reset | apply upholds_Q].
  - intros conn. destruct (migrate_option config); [apply upholds_migrate | apply upholds_Q].
  - apply upholds_load.
Qed.


(** The chain of a dry run: [finish] is not part of it. *)
Lemma upholds_chain_dry (config : Config) (migrations : list Migration) :
  dry_run config = true ->
  upholds_ (chain pg_connect client_query fs require_ config migrations).
Proof.
  intros Hdry. unfold chain. rewrite Hdry. apply upholds_then; [apply upholds_then |].
  - apply upholds_loaded.
  - apply upholds_reverting.
  - apply upholds_check.
Qed.


Lemma upholds_semigrate_dry (config : Config) :
  dry_run config = true ->
  upholds_ (semigrate pg_connect client_query fs require_ (Some config)).
Proof.
  intros Hdry. simpl.
  destruct (VersionCatalog.list fs (directory_or_dot config)); [apply upholds_throw |].
  now apply upholds_fin, upholds_chain_dry.
Qed.
End RunInvariant.

(** ** Sequencing *)

Lemma pick_app {A B} (f : A -> option B) (a b : list A) :
  pick f (a ++ b) = (pick f a ++ pick f b)%list.
Proof.
  induction a as [|x a IH]; simpl; [reflexivity |].
  destruct (f x); simpl; now rewrite IH.
Qed.















Section Sequencing.
Local Open Scope list_scope.
Context {DB : Type}.
Variable pg_connect : string -> DB -> option Exn.
Variable client_query : Statement -> DB -> (Exn + Rows) * DB.
Variable fs : FileSystem.
Variable require_ : string -> DB -> Completion * DB.


End Sequencing.



(** ** Dry runs *)

Lemma issued_app (statement : string) (a b : list Event) :
  issued statement (a ++ b) = issued statement a || issued statement b.
Proof. apply existsb_app. Qed.

Lemma not_issued (statement : string) (t : list Event) (s : Statement) :
  issued statement t = false -> In s (statements t) -> text s <> statement.
Proof.
  induction t as [|e t IH]; simpl; [intros _ [] |].
  intros H. apply orb_false_iff in H as [He Ht].
  destruct e; simpl; try (now apply IH).
  intros [<- | Hin]; [now apply String.eqb_neq | now apply IH].
Qed.

Lemma In_skipn {A} (n : nat) (l : list A) (x : A) : In x (skipn n l) -> In x l.
Proof.
  revert l. induction n as [|n IH]; intros l; [trivial |].
  destruct l as [|y l]; simpl; [trivial |]. intros H. right. now apply IH.
Qed.

Section DryRun.
Local Open Scope list_scope.
Context {DB S : Type}.
Variable pg_connect : string -> DB -> option Exn.
Variable client_query : Statement -> DB -> (Exn + Rows) * DB.
Variable fs : FileSystem.
Variable require_ : string -> DB -> Completion * DB.

(** What is stored in the database for good. *)
Variable persisted : DB -> S.
Hypothesis stores_on_commit : forall s d,
  text s <> COMMIT -> persisted (snd (client_query s d)) = persisted d.
Hypothesis modules_store_nothing : forall filename d,
  persisted (snd (require_ filename d)) = persisted d.
Hypothesis no_script_commits : forall filename content,
  readFileSync fs filename = Some content -> content <> COMMIT.

Local Abbreviation uncommitted :=
  (fun (d : DB) (_ : bool) (d' : DB) (t : list Event) =>
     persisted d' = persisted d /\ issued COMMIT t = false).

Lemma query_uncommitted (conn : Connection) (statement : string)
    (parameters : list SemVer) :
  statement <> COMMIT ->
  upholds uncommitted (query client_query conn statement parameters).
Proof.
  intros Hs db. unfold query.
  pose proof (stores_on_commit (mkStatement statement parameters) db Hs) as Hp.
  destruct (client_query _ db) as [r db']. simpl in *.
  split; [exact Hp |]. apply String.eqb_neq in Hs. now rewrite Hs.
Qed.

Lemma run_queue_uncommitted (queue : list Statement) (d : DB) :
  (forall s, In s queue -> text s <> COMMIT) ->
  persisted (snd (run_queue client_query queue d)) = persisted d.
Proof.
  revert d. induction queue as [|s queue IH]; intros d H; [reflexivity |]. simpl.
  pose proof (stores_on_commit s d (H s (or_introl eq_refl))) as Hp.
  destruct (client_query s d) as [r d1]. simpl in Hp.
  specialize (IH d1 (fun s' Hs' => H s' (or_intror Hs'))).
  destruct (run_queue client_query queue d1) as [rs d2]. simpl in *. congruence.
Qed.

(** A dry run stores nothing and issues no COMMIT. *)
Lemma dry_run_uncommitted (config : Config) (db : DB) :
  dry_run config = true ->
  uncommitted db
    (is_resolved (fst (fst (semigrate pg_connect client_query fs require_ (Some config) db))))
    (snd (fst (semigrate pg_connect client_query fs require_ (Some config) db)))
    (snd (semigrate pg_connect client_query fs require_ (Some config) db)).
Proof.
  intros Hdry.
  apply (upholds_semigrate_dry pg_connect client_query fs require_ uncommitted);
    [ | | | | | | | | | | exact Hdry].
  - now split.
  - intros d d1 d2 _ t1 t2 [Hp1 Hi1] [Hp2 Hi2].
    split; [congruence | now rewrite issued_app, Hi1, Hi2].
  - now split.
  - intros d d1 _ t a [Hp Hi]. split; [exact Hp | now rewrite issued_app, Hi].
  - intros conn text Hin. apply query_uncommitted.
    destruct Hin as [<- | [<- | [<- | []]]]; discriminate.
  - intros conn filename content Hread. apply query_uncommitted.
    exact (no_script_commits filename content Hread).
  - intros conn v. apply query_uncommitted. discriminate.
  - intros filename conn d. unfold required.
    pose proof (modules_store_nothing filename d) as Hp.
    destruct (require_ filename d) as [c d']. now split.
  - intros conn s1 s2 Hp d. unfold Q_all_query. simpl.
    assert (H1 : s1 <> COMMIT /\ s2 <> COMMIT).
    { destruct Hp as [[-> ->] | [-> ->]]; split; discriminate. }
    destruct H1 as [H1 H2].
    pose proof (stores_on_commit (mkStatement s1 []) d H1) as Hp1.
    destruct (client_query (mkStatement s1 []) d) as [[e1|rows1] d1]; simpl in *.
    + apply String.eqb_neq in H1, H2. rewrite H1, H2. now split.
    + pose proof (stores_on_commit (mkStatement s2 []) d1 H2) as Hp2.
      destruct (client_query (mkStatement s2 []) d1) as [[e2|rows2] d2]; simpl in *;
        apply String.eqb_neq in H1, H2; rewrite H1, H2; (split; [congruence | reflexivity]).
  - intros d d1 d2 e _ t2 Hq [Hp Hi].
    assert (Hs : text SELECT <> COMMIT) by discriminate.
    pose proof (stores_on_commit SELECT d Hs) as Hp1. rewrite Hq in Hp1. simpl in Hp1.
    split; [congruence | exact Hi].
Qed.
End DryRun.

(** C3 (as amended): on a dry run the finalizing step issues no statement at
    all, neither COMMIT nor ROLLBACK: it prints that it is reverting and
    passes the session on as loading left it, transaction still open, and
    verification follows at once on that same state.  No COMMIT is issued
    anywhere in the run; so, with a database that stores only on COMMIT and
    scripts that do not commit themselves, what is stored after the run,
    and after the client has worked off what it still held, is what was
    stored before it. *)
Theorem dry_run_commits_nothing {DB S : Type}
    (pg_connect : string -> DB -> option Exn)
    (client_query : Statement -> DB -> (Exn + Rows) * DB)
    (fs : FileSystem) (require_ : string -> DB -> Completion * DB)
    (persisted : DB -> S) (config : Config) (db : DB) :
  dry_run config = true ->
  (forall s d, text s <> COMMIT -> persisted (snd (client_query s d)) = persisted d) ->
  (forall filename d, persisted (snd (require_ filename d)) = persisted d) ->
  (forall filename content, readFileSync fs filename = Some content -> content <> COMMIT) ->
  (forall migrations d,
     chain pg_connect client_query fs require_ config migrations d
     = match loaded pg_connect client_query fs require_ config migrations d with
       | (Resolved conn, db1, t1) =>
           let '(o, db2, t2) :=
             caught (check client_query
                       (semver.maxSatisfying (map version migrations)) conn db1) in
           (o, db2, (t1 ++ Stdout (report_info ("Reverting..." ++ newline)) :: t2)%list)
       | failed => failed
       end) /\
  let '(o, db', t) := semigrate pg_connect client_query fs require_ (Some config) db in
  issued COMMIT t = false /\
  persisted db' = persisted db /\
  persisted (snd (afterwards client_query t db')) = persisted db.
Proof.
  intros Hdry Hdb Hjs Hscripts. split.
  - intros migrations d. unfold chain. rewrite Hdry. simpl negb. cbv iota.
    unfold then_ at 1 2. unfold bind.
    destruct (loaded pg_connect client_query fs require_ config migrations d)
      as [[[conn|e|e|e] db1] t1]; try reflexivity.
    simpl.
    destruct (caught (check client_query _ conn db1)) as [[o db2] t2].
    now rewrite <- app_assoc.
  - pose proof (dry_run_uncommitted pg_connect client_query fs require_ persisted
                  Hdb Hjs Hscripts config db Hdry) as H.
    destruct (semigrate pg_connect client_query fs require_ (Some config) db)
      as [[o db'] t].
    simpl in H. destruct H as [Hp Hi].
    split; [exact Hi | split; [exact Hp |]].
    unfold afterwards.
    pose proof (run_queue_uncommitted client_query persisted Hdb (outstanding t) db') as Hq.
    destruct (run_queue client_query (outstanding t) db') as [rs db1]. simpl in *.
    rewrite Hq; [exact Hp |].
    intros s Hs. apply (not_issued COMMIT t s Hi).
    unfold outstanding in Hs. now apply In_skipn in Hs.
Qed.

(** ** Units: steps, bookkeeping and the queue *)

Lemma started_app (a b : list Event) : started (a ++ b) = (started a ++ started b)%list.
Proof. apply pick_app. Qed.

Lemma recorded_app (a b : list Event) : recorded (a ++ b) = (recorded a ++ recorded b)%list.
Proof. apply pick_app. Qed.

Lemma inserts_app (a b : list Event) : inserts (a ++ b) = (inserts a ++ inserts b)%list.
Proof. apply pick_app. Qed.

Lemma quiet_app (a b : list Event) : quiet_trace a -> quiet_trace b -> quiet_trace (a ++ b).
Proof.
  intros (Ha1 & Ha2 & Ha3) (Hb1 & Hb2 & Hb3). unfold quiet_trace.
  now rewrite started_app, recorded_app, inserts_app, Ha1, Ha2, Ha3, Hb1, Hb2, Hb3.
Qed.

Lemma quiet_output (o : Output) : is_migration_output o = false -> quiet_trace [Stdout o].
Proof. destruct o; try discriminate; intros _; now repeat split. Qed.

Section Units.
Local Open Scope list_scope.
Context {DB : Type}.
Variable client_query : Statement -> DB -> (Exn + Rows) * DB.
Variable fs : FileSystem.
Variable require_ : string -> DB -> Completion * DB.




(** [run], read off its definition: the steps, and after them, when they
    resolved, the INSERT of the version and nothing else. *)
Lemma run_unfolded (migration : Migration) (conn : Connection) (db : DB) :
  run client_query fs require_ migration conn db
  = match steps client_query fs require_ migration conn db with
    | (Resolved _, db1, t1) =>
        let '(r, db2) := client_query (INSERT (version migration)) db1 in
        (settle r, db2,
         t1 ++ [Issue (INSERT (version migration));
                Complete (INSERT (version migration)) (is_ok r)])
    | (Rejected e, db1, t1) => (Rejected e, db1, t1)
    | (Thrown e, db1, t1) => (Thrown e, db1, t1)
    | (Uncaught e, db1, t1) => (Uncaught e, db1, t1)
    end.
Proof.
  unfold run, then_, bind.
  destruct (steps client_query fs require_ migration conn db) as [[[u|e|e|e] db1] t1];
    try reflexivity.
  unfold query. fold (INSERT (version migration)).
  destruct (client_query (INSERT (version migration)) db1) as [[e|rows] db2]; reflexivity.
Qed.


End Units.

Section Queue.
Local Open Scope list_scope.
Context {DB : Type}.
Variable client_query : Statement -> DB -> (Exn + Rows) * DB.
Variable fs : FileSystem.
Variable require_ : string -> DB -> Completion * DB.

Local Abbreviation run_ := (run client_query fs require_).
Local Abbreviation resume_ := (resume client_query fs require_).

Lemma resume_not_thrown (l : list Migration) (conn : Connection) (db : DB) (e : Exn) :
  fst (fst (resume_ l conn db)) <> Thrown e.
Proof.
  destruct l as [|m rest]; simpl; [discriminate |].
  unfold in_tick. destruct (say _ _ db) as [[[] ?] ?]; discriminate.
Qed.

Lemma resume_cons (m : Migration) (rest : list Migration) (conn : Connection) (db : DB) :
  resume_ (m :: rest) conn db
  = match run_ m conn db with
    | (Resolved _, db1, t1) =>
        let '(o, db2, t2) := resume_ rest conn db1 in
        (o, db2, unit_header m ++ t1 ++ unit_footer m ++ t2)
    | (Rejected e, db1, t1) => (Rejected e, db1, unit_header m ++ t1)
    | (Thrown e, db1, t1) => (Uncaught e, db1, unit_header m ++ t1)
    | (Uncaught e, db1, t1) => (Uncaught e, db1, unit_header m ++ t1)
    end.
Proof.
  cbn [resume]. cbv beta delta [in_tick say say_if bind unit_header unit_footer].
  pose proof (resume_not_thrown rest conn) as Hnt.
  destruct (multiple m); cbv beta iota; cbn [negb];
    destruct (run_ m conn db) as [[[rows|e|e|e] db1] t1]; try reflexivity;
    specialize (Hnt db1);
    destruct (resume_ rest conn db1) as [[[c|e|e|e] db2] t2]; simpl in *;
    try reflexivity; now destruct (Hnt e).
Qed.




End Queue.

Section Migrating.
Local Open Scope list_scope.
Context {DB : Type}.
Variable client_query : Statement -> DB -> (Exn + Rows) * DB.
Variable fs : FileSystem.
Variable require_ : string -> DB -> Completion * DB.

Lemma filter_pending (detected : option SemVer) (migrations : list Migration) :
  _filter (is_pending (js_of detected)) migrations
  = inr (filter (newer_than detected) migrations).
Proof.
  induction migrations as [|m rest IH]; simpl; [reflexivity |].
  rewrite IH. destruct detected as [v|]; reflexivity.
Qed.

(** [migrate] after a detection that succeeded: the queue is the catalog
    filtered by the detected version. *)
Lemma migrate_detected (migrations : list Migration) (conn : Connection)
    (db db1 : DB) (rows : Rows) :
  client_query SELECT db = (inr rows, db1) ->
  migrate client_query fs require_ migrations conn db
  = (let detected := semver.maxSatisfying rows in
     let pending := filter (newer_than detected) migrations in
     let '(o, db', t) := resume client_query fs require_ pending conn db1 in
     (o, db',
      ([Issue SELECT; Complete SELECT true] ++ current_version_report false detected)
        ++ migrating_report pending ++ t)).
Proof.
  intros Hq. unfold migrate.
  rewrite (then_resolved _ _ db db1 (js_of (semver.maxSatisfying rows))
             ([Issue SELECT; Complete SELECT true]
                ++ current_version_report false (semver.maxSatisfying rows))).
  - rewrite filter_pending. cbv zeta. unfold migrating_report.
    set (pending := filter (newer_than (semver.maxSatisfying rows)) migrations).
    pose proof (resume_not_thrown client_query fs require_ pending conn db1) as Hnt.
    destruct (negb (Nat.eqb (List.length pending) 0)); simpl say_if; unfold say;
      destruct (resume client_query fs require_ pending conn db1) as [[[c|e|e|e] db2] t2];
      simpl in *; try reflexivity; now destruct (Hnt e).
  - unfold then2. rewrite (detect_returns client_query false conn db db1 rows Hq).
    simpl. now rewrite app_nil_r.
Qed.
End Migrating.



(** ** The engine on the sample world *)

(** C1, as stated, fails: a run that migrates the README layout into a fresh
    database and succeeds calls back once, and the connection has not been
    released by then, not once. *)
Lemma connection_not_released_before_callback :
  let r := Sample.semigrate (Some (Sample.config "app" "migrations" false)) Sample.fresh in
  is_resolved (fst (fst r)) = true /\
  callbacks (snd r) = [None] /\
  releases_before_callback (snd r) = Some 0 /\
  releases_before_callback (snd r) <> Some 1.
Proof.
  vm_compute. repeat split; discriminate.
Qed.


(** C3, as stated, fails: a dry run of the README layout on a fresh database
    goes through to a successful verification without a single ROLLBACK (or
    COMMIT) being issued, and verification reports the database as up to
    date: it reads the versions the open transaction has inserted. *)
Lemma dry_run_issues_no_rollback :
  let c := Sample.config "app" "migrations" true in
  let r := Sample.semigrate (Some c) Sample.fresh in
  dry_run c = true /\
  is_resolved (fst (fst r)) = true /\
  issued ROLLBACK (snd r) = false /\
  issued COMMIT (snd r) = false /\
  logged UP_TO_DATE (snd r) = true.
Proof.
  vm_compute. repeat split.
Qed.



(** C8, as stated, fails: two entries of one directory that carry the same
    version are both listed, so the sequence is not strictly ascending. *)
Lemma list_not_strictly_ascending :
  exists ms,
    VersionCatalog.list Sample.fs "twice" = inr ms /\
    map version ms = [semver.mk 1 0 0; semver.mk 1 0 0] /\
    ~ strictly_ascending (map version ms).
Proof.
  eexists. split; [vm_compute; reflexivity |]. split; [reflexivity |].
  rewrite <- strictly_ascendingb_spec. discriminate.
Qed.

(** C2 (the code at the failing input): the bookkeeping table cannot be read
    and the catalog holds one unit. Detection fails, ROLLBACK and BEGIN are
    issued, and [version] is then the array of their results, not null: the
    filter throws on the first unit and [migrate] rejects with a TypeError
    before any unit is begun. *)
Theorem detection_recovery_rejects :
  Sample.catalog "v15"
    = [mkMigration (semver.mk 1 5 0) "release.sql" false "v15/1.5.0-release.sql"
         ["v15/1.5.0-release.sql"]] /\
  Sample.migrate (Sample.catalog "v15") Sample.unreadable
    = (Rejected (TypeError "Invalid Version"), Sample.unreadable,
       [Issue SELECT; Complete SELECT false;
        Issue (mkStatement ROLLBACK []); Issue (mkStatement BEGIN []);
        Complete (mkStatement ROLLBACK []) true; Complete (mkStatement BEGIN []) true]) /\
  fst (fst (Sample.semigrate (Some (Sample.config "app" "v15" false)) Sample.unreadable))
    = Rejected (TypeError "Invalid Version").
Proof.
  vm_compute. repeat split.
Qed.

(** C5 (the code at the failing input): the database cannot be reached, the
    run is rejected with the connection error, and the completion callback is
    called once, with null. *)
Theorem callback_gets_null_on_failure :
  let r := Sample.semigrate (Some (Sample.config "down" "migrations" false)) Sample.fresh in
  fst (fst r) = Rejected (PgError "connection refused") /\
  callbacks (snd r) = [None].
Proof.
  vm_compute. split; reflexivity.
Qed.

(** ** The theorems at work on the sample world *)

Example catalog_failing :
  Sample.catalog "failing" = [first_unit; broken_unit; third_unit].
Proof. reflexivity. Qed.

Example catalog_migrations_head :
  hd_error (Sample.catalog "migrations") = Some initial_schema.
Proof. reflexivity. Qed.

(** The catalog theorem on the README layout. *)
Lemma list_ascending_and_well_named_witness :
  let ms := Sample.catalog "migrations" in
  let names := Sample.names "migrations" in
  ascending (map version ms) /\
  (NoDup (map version ms) -> strictly_ascending (map version ms)) /\
  (forall m, In m ms ->
     exists name prefix,
       In name names /\ path m = path_join "migrations" name /\
       match_spec name = Some (prefix, title m) /\
       semver.valid prefix = Some (version m)) /\
  (forall name, In name names -> well_named name = false ->
     forall m, In m ms -> path m <> path_join "migrations" name) /\
  (forall name m, In name names ->
     VersionCatalog.parseMigrationSpec Sample.fs (path_join "migrations" name)
     = inr (Some m) ->
     In m ms) /\
  (exists parsed,
     VersionCatalog.map_throwing (VersionCatalog.parseMigrationSpec Sample.fs)
       (map (path_join "migrations") names) = inr parsed /\
     Permutation (compact parsed) ms).
Proof.
  exact (list_ascending_and_well_named Sample.fs "migrations"
           (Sample.names "migrations") (Sample.catalog "migrations")
           eq_refl eq_refl eq_refl).
Defined.


(** The sample database stores only on COMMIT, and no sample script is a
    COMMIT. *)
Lemma Sample_stores_on_commit (s : Statement) (d : Sample.Db) :
  text s <> COMMIT ->
  Sample.committed (snd (Sample.client_query s d)) = Sample.committed d.
Proof.
  intros Hs. apply String.eqb_neq in Hs. unfold Sample.client_query, Sample.fail.
  rewrite Hs.
  repeat match goal with
         | |- context [if ?c then _ else _] => destruct c
         | |- context [match ?l with [] => _ | _ :: _ => _ end] => destruct l
         end; reflexivity.
Qed.

Lemma Sample_scripts (filename content : string) :
  readFileSync Sample.fs filename = Some content -> content <> COMMIT.
Proof.
  simpl. destruct (String.eqb filename "failing/0.0.2-broken.sql");
    intros [= <-]; discriminate.
Qed.

(** A dry run of the README layout on a fresh database. *)
Lemma dry_run_commits_nothing_witness :
  dry_run (Sample.config "app" "migrations" true) = true /\
  let '(o, db', t) :=
    Sample.semigrate (Some (Sample.config "app" "migrations" true)) Sample.fresh in
  issued COMMIT t = false /\
  Sample.committed db' = Sample.committed Sample.fresh /\
  Sample.committed (snd (afterwards Sample.client_query t db'))
  = Sample.committed Sample.fresh.
Proof.
  split; [reflexivity |].
  exact (proj2 (dry_run_commits_nothing Sample.pg_connect Sample.client_query
                  Sample.fs Sample.require_ Sample.committed
                  (Sample.config "app" "migrations" true) Sample.fresh
                  eq_refl Sample_stores_on_commit (fun _ _ => eq_refl)
                  Sample_scripts)).
Defined.



(** ** The two defects, in general *)

Lemma callbacks_app (a b : list Event) :
  callbacks (a ++ b) = (callbacks a ++ callbacks b)%list.
Proof.
  induction a as [|e a IH]; simpl; [reflexivity |].
  destruct e; simpl; now rewrite ?IH.
Qed.

(** Outside of the callback itself nothing in the chain calls the callback. *)
Lemma chain_calls_no_callback {DB : Type}
    (pg_connect : string -> DB -> option Exn)
    (client_query : Statement -> DB -> (Exn + Rows) * DB)
    (fs : FileSystem) (require_ : string -> DB -> Completion * DB)
    (config : Config) (migrations : list Migration) (db : DB) :
  callbacks (snd (chain pg_connect client_query fs require_ config migrations db)) = [].
Proof.
  apply (keeps_chain pg_connect client_query fs require_ (fun t => callbacks t = []));
    try reflexivity.
  intros a b Ha Hb. now rewrite callbacks_app, Ha, Hb.
Qed.

(** Whenever the chain of a run settles, resolved or rejected, the callback
    is called once, and with null in both cases; a run that throws or dies
    on an uncaught exception never calls it. *)
Lemma semigrate_callback_argument {DB : Type}
    (pg_connect : string -> DB -> option Exn)
    (client_query : Statement -> DB -> (Exn + Rows) * DB)
    (fs : FileSystem) (require_ : string -> DB -> Completion * DB)
    (config : option Config) (db db' : DB) (o : Outcome Connection) (t : list Event) :
  semigrate pg_connect client_query fs require_ config db = (o, db', t) ->
  callbacks t = match o with
                | Resolved _ | Rejected _ => [None]
                | Thrown _ | Uncaught _ => []
                end.
Proof.
  destruct config as [config|]; simpl; [| intros [= <- <- <-]; reflexivity].
  destruct (VersionCatalog.list fs (directory_or_dot config)) as [e|migrations];
    [intros [= <- <- <-]; reflexivity |].
  pose proof (chain_calls_no_callback pg_connect client_query fs require_
                config migrations db) as Hchain.
  unfold fin, then2.
  destruct (chain pg_connect client_query fs require_ config migrations db)
    as [[[conn|e|e|e] db1] t1]; simpl in *; intros H.
  - assert (Ho : o = Resolved conn) by congruence.
    assert (Ht : t = (t1 ++ [Callback None])%list) by congruence.
    subst o t. now rewrite callbacks_app, Hchain.
  - assert (Ho : o = Rejected e) by congruence.
    assert (Ht : t = (t1 ++ [Callback None])%list) by congruence.
    subst o t. now rewrite callbacks_app, Hchain.
  - assert (Ho : o = Thrown e) by congruence.
    assert (Ht : t = t1) by congruence. subst o t. exact Hchain.
  - assert (Ho : o = Uncaught e) by congruence.
    assert (Ht : t = t1) by congruence. subst o t. exact Hchain.
Qed.

(** With a catalog that is not empty, a detection that fails and a client
    that then takes the ROLLBACK and the BEGIN, [migrate] rejects with a
    TypeError: the filter compares the first unit against the array [Q.all]
    resolved with. *)
Lemma migrate_after_failed_detection {DB : Type}
    (client_query : Statement -> DB -> (Exn + Rows) * DB)
    (fs : FileSystem) (require_ : string -> DB -> Completion * DB)
    (conn : Connection) (m : Migration) (rest : list Migration)
    (db db1 db2 db3 : DB) (e : Exn) (rows1 rows2 : Rows) :
  client_query SELECT db = (inl e, db1) ->
  client_query (mkStatement ROLLBACK []) db1 = (inr rows1, db2) ->
  client_query (mkStatement BEGIN []) db2 = (inr rows2, db3) ->
  migrate client_query fs require_ (m :: rest) conn db
  = (Rejected (TypeError "Invalid Version"), db3,
     [Issue SELECT; Complete SELECT false;
      Issue (mkStatement ROLLBACK []); Issue (mkStatement BEGIN []);
      Complete (mkStatement ROLLBACK []) true; Complete (mkStatement BEGIN []) true]).
Proof.
  intros Hsel Hrb Hbg. unfold migrate, then_, bind, then2.
  rewrite (detect_fails client_query false conn db db1 e Hsel).
  unfold Q_all_query. simpl. rewrite Hrb, Hbg. reflexivity.
Qed.

(** With an empty catalog the same recovery goes through: the predicate of
    the filter is never called. *)
Lemma migrate_nothing_after_failed_detection {DB : Type}
    (client_query : Statement -> DB -> (Exn + Rows) * DB)
    (fs : FileSystem) (require_ : string -> DB -> Completion * DB)
    (conn : Connection) (db db1 db2 db3 : DB) (e : Exn) (rows1 rows2 : Rows) :
  client_query SELECT db = (inl e, db1) ->
  client_query (mkStatement ROLLBACK []) db1 = (inr rows1, db2) ->
  client_query (mkStatement BEGIN []) db2 = (inr rows2, db3) ->
  fst (fst (migrate client_query fs require_ [] conn db)) = Resolved conn.
Proof.
  intros Hsel Hrb Hbg. unfold migrate, then_, bind, then2.
  rewrite (detect_fails client_query false conn db db1 e Hsel).
  unfold Q_all_query. simpl. rewrite Hrb, Hbg. reflexivity.
Qed.

(** * Further properties of the code *)

(** ** Strings *)

Lemma length_append (a b : string) :
  String.length (a ++ b) = String.length a + String.length b.
Proof. induction a as [|x a IH]; simpl; [reflexivity | now rewrite IH]. Qed.

Lemma length_repeat_string (s : string) (k : nat) :
  String.length (repeat_string s k) = k * String.length s.
Proof.
  induction k as [|k IH]; simpl; [reflexivity |]. now rewrite length_append, IH.
Qed.

(** X1: [pad] never shortens or alters its text: the text comes back with a
    filler after it ([right]) or before it, the filler being the pad string
    ([' '] when none is given) repeated once per missing character; with a
    pad string of one character the result is exactly as long as the longer
    of the text and the width, and a text that already fills the width comes
    back unchanged. *)
Theorem pad_spec (n : string) (width : nat) (char : string) (right : bool) :
  let filler :=
    repeat_string (if String.eqb char "" then " " else char) (width - String.length n) in
  pad n width char right = (if right then n ++ filler else filler ++ n)%string /\
  (String.length (if String.eqb char "" then " " else char) = 1 ->
   String.length (pad n width char right) = Nat.max (String.length n) width) /\
  (width <= String.length n -> pad n width char right = n).
Proof.
  cbv zeta.
  assert (Hpad : pad n width char right
    = (if right
       then n ++ repeat_string (if String.eqb char "" then " " else char)
                   (width - String.length n)
       else repeat_string (if String.eqb char "" then " " else char)
              (width - String.length n) ++ n)%string).
  { unfold pad, join_empty_slots.
    replace (Nat.pred (Nat.max 0 (width + 1 - String.length n)))
      with (width - String.length n) by lia.
    reflexivity. }
  split; [exact Hpad | split].
  - intros Hone. rewrite Hpad.
    destruct right; rewrite length_append, length_repeat_string, Hone; lia.
  - intros Hfull. rewrite Hpad.
    replace (width - String.length n) with 0 by lia. simpl.
    destruct right; [apply append_empty | reflexivity].
Qed.

(** ** Extensions *)








(** The regular expression of [parseMigrationSpec], said in full. *)
Lemma split_hyphen_spec (name prefix rest : string) :
  split_hyphen name = Some (prefix, rest) <->
  name = (prefix ++ String "-" rest)%string /\ has_char is_hyphen prefix = false.
Proof.
  revert prefix. induction name as [|c name IH]; intros prefix; simpl.
  - split; [discriminate |]. intros [H _]. destruct prefix; discriminate.
  - destruct (Ascii.eqb c "-") eqn:Ec.
    + apply Ascii.eqb_eq in Ec; subst c. split.
      * intros [= <- <-]. now split.
      * intros [H Hp]. destruct prefix as [|a prefix]; simpl in *.
        -- now injection H as ->.
        -- injection H as <- _. discriminate.
    + split.
      * destruct (split_hyphen name) as [[a b]|] eqn:E; [| discriminate].
        intros [= <- <-]. destruct (proj1 (IH a) eq_refl) as [-> Ha]. simpl.
        unfold is_hyphen at 1. rewrite Ec. now split.
      * intros [H Hp]. destruct prefix as [|a prefix]; simpl in *.
        -- injection H as -> _. discriminate.
        -- injection H as <- ->. apply orb_false_iff in Hp as [_ Hp].
           now rewrite (proj2 (IH prefix) (conj eq_refl Hp)).
Qed.

Lemma prefix_spec (p s : string) :
  String.prefix p s = true <-> exists after, s = (p ++ after)%string.
Proof.
  revert s. induction p as [|a p IH]; intros s.
  - split; [intros _; now exists s | intros _; now destruct s].
  - destruct s as [|b s]; simpl;
      [split; [discriminate | intros (after & H); discriminate] |].
    destruct (ascii_dec a b) as [<- | Hne].
    + rewrite IH. split; intros (after & H); exists after; [now rewrite H | now injection H].
    + split; [discriminate |]. intros (after & H). injection H as H _. now destruct Hne.
Qed.

(** A string holds a line terminator exactly when one of the four occurs
    somewhere in it. *)
Lemma has_line_terminator_spec (s : string) :
  has_line_terminator s = true <->
  exists terminator before after,
    In terminator LINE_TERMINATORS /\ s = (before ++ terminator ++ after)%string.
Proof.
  induction s as [|c s IH].
  - split; [discriminate |]. intros (terminator & before & after & Hin & H).
    destruct before; [| discriminate]. simpl in H.
    destruct Hin as [<- | [<- | [<- | [<- | []]]]]; discriminate.
  - cbn [has_line_terminator]. rewrite orb_true_iff, existsb_exists, IH. split.
    + intros [(terminator & Hin & Hp) | (terminator & before & after & Hin & ->)].
      * apply prefix_spec in Hp as (after & Hp). now exists terminator, "", after.
      * now exists terminator, (String c before), after.
    + intros (terminator & before & after & Hin & H). destruct before as [|b before].
      * left. exists terminator. split; [exact Hin |]. apply prefix_spec. now exists after.
      * right. simpl in H. injection H as _ ->. now exists terminator, before, after.
Qed.

(** X3: an entry name is taken for a migration name exactly when it is a
    hyphen-free prefix, a hyphen, and a rest in which no line terminator
    occurs (LF, CR, U+2028 or U+2029); the split is at the first hyphen, so
    the title keeps any further hyphens. *)
Theorem match_spec_iff (name prefix rest : string) :
  match_spec name = Some (prefix, rest) <->
  name = (prefix ++ String "-" rest)%string /\
  has_char is_hyphen prefix = false /\
  (forall terminator before after,
     In terminator LINE_TERMINATORS -> rest <> (before ++ terminator ++ after)%string).
Proof.
  unfold match_spec. split.
  - destruct (split_hyphen name) as [[a b]|] eqn:E; [| discriminate].
    destruct (has_line_terminator b) eqn:Hb; [discriminate |].
    intros [= <- <-]. apply split_hyphen_spec in E as [-> Ha].
    split; [reflexivity | split; [exact Ha |]].
    intros terminator before after Hin ->.
    assert (Habs : has_line_terminator (before ++ terminator ++ after) = true).
    { apply has_line_terminator_spec. now exists terminator, before, after. }
    congruence.
  - intros (Hn & Hp & Hr).
    rewrite (proj2 (split_hyphen_spec name prefix rest) (conj Hn Hp)).
    destruct (has_line_terminator rest) eqn:Hb; [| reflexivity].
    apply has_line_terminator_spec in Hb as (terminator & before & after & Hin & H).
    now destruct (Hr terminator before after Hin).
Qed.

(** ** The catalog, once more *)

Lemma map_throwing_fails {A B} (f : A -> Exn + B) (l : list A) (e : Exn) :
  VersionCatalog.map_throwing f l = inl e -> exists x, In x l /\ f x = inl e.
Proof.
  induction l as [|a l IH]; simpl; [discriminate |].
  destruct (f a) as [e0|y0] eqn:Ea.
  - intros [= <-]. exists a. split; [now left | exact Ea].
  - destruct (VersionCatalog.map_throwing f l) as [e0|ys0]; [| discriminate].
    intros [= <-]. destruct (IH eq_refl) as (x & Hx & Hf).
    exists x. split; [now right | exact Hf].
Qed.

Lemma parse_fails (fs : FileSystem) (spec : string) (e : Exn) :
  VersionCatalog.parseMigrationSpec fs spec = inl e <->
  e = FsError spec /\ well_named (path_basename spec) = true /\
  (statSync fs spec = None \/
   (statSync fs spec = Some true /\ readdirSync fs spec = None)).
Proof.
  unfold VersionCatalog.parseMigrationSpec, well_named.
  destruct (match_spec (path_basename spec)) as [[prefix rest]|].
  - destruct (semver.valid prefix).
    + destruct (statSync fs spec) as [[|]|].
      * destruct (readdirSync fs spec).
        -- split; [discriminate |]. intros (_ & _ & [H | [_ H]]); discriminate.
        -- split; [intros [= <-] | intros (-> & _); reflexivity].
           split; [reflexivity | split; [reflexivity | now right]].
      * destruct (validMigrationType spec);
          (split; [discriminate | intros (_ & _ & [H | [H _]]); discriminate]).
      * split; [intros [= <-] | intros (-> & _); reflexivity].
        split; [reflexivity | split; [reflexivity | now left]].
    + split; [discriminate | intros (_ & H & _); discriminate].
  - split; [discriminate | intros (_ & H & _); discriminate].
Qed.

Lemma or_dot_directory (config : Config) :
  or_dot (directory_or_dot config) = directory_or_dot config.
Proof.
  unfold directory_or_dot, or_dot. destruct (directory config) as [d|]; [| reflexivity].
  destruct (String.eqb d "") eqn:E; [reflexivity | now rewrite E].
Qed.

(** X4: the units [list] returns are exactly what [parseMigrationSpec] makes
    of the entries of the directory: nothing that parses is dropped, and
    nothing is there that does not come from an entry. *)
Theorem list_exactly_the_parsed_entries (fs : FileSystem) (directory : string)
    (names : list string) (ms : list Migration) (m : Migration) :
  readdirSync fs (or_dot directory) = Some names ->
  VersionCatalog.list fs directory = inr ms ->
  In m ms <->
  exists name, In name names /\
    VersionCatalog.parseMigrationSpec fs (path_join directory name) = inr (Some m).
Proof.
  intros Hdir Hlist. split; [now apply list_origin |].
  intros (name & Hname & Hparse).
  exact (list_keeps _ _ _ _ _ _ Hdir Hlist Hname Hparse).
Qed.

(** X5: every unit of the catalog is either a group, whose path is a
    directory and whose files are the entries of that directory with a
    migration extension, joined to the path, in listing order; or a single
    file of a migration type that is its own only step. Either way every file a unit is
    run from ends in [.sql] or [.js], so [runStep] never meets a file it
    would pass over. *)
Theorem catalog_units_are_scripts (fs : FileSystem) (directory : string)
    (ms : list Migration) (m : Migration) :
  VersionCatalog.list fs directory = inr ms ->
  In m ms ->
  (if multiple m
   then isDirectory fs (path m) = true /\
        exists children, readdirSync fs (path m) = Some children /\
          files m = filter validMigrationType (map (path_join (path m)) children)
   else isDirectory fs (path m) = false /\ files m = [path m]) /\
  (forall file, In file (step_files m) ->
     path_extname file = ".sql" \/ path_extname file = ".js").
Proof.
  intros Hlist Hin.
  assert (Hnames : exists names, readdirSync fs (or_dot directory) = Some names).
  { unfold VersionCatalog.list in Hlist.
    destruct (readdirSync fs (or_dot directory)) as [names|];
      [now exists names | discriminate]. }
  destruct Hnames as (names & Hdir).
  destruct (list_origin _ _ _ _ _ Hdir Hlist Hin) as (name & _ & Hparse).
  clear Hlist Hin Hdir. revert Hparse.
  generalize (path_join directory name) as spec. intros spec.
  unfold VersionCatalog.parseMigrationSpec, step_files, isDirectory.
  destruct (match_spec (path_basename spec)) as [[prefix rest]|]; [| discriminate].
  destruct (semver.valid prefix) as [ver|]; [| discriminate].
  destruct (statSync fs spec) as [[|]|] eqn:Hd; [| | discriminate].
  - destruct (readdirSync fs spec) as [children|] eqn:Hc; [| discriminate].
    intros [= <-]; simpl. rewrite Hd. split.
    + split; [reflexivity | now exists children].
    + intros file Hfile. apply filter_In in Hfile as [_ Hv].
      unfold validMigrationType in Hv.
      apply orb_true_iff in Hv as [Hv | Hv]; apply String.eqb_eq in Hv; auto.
  - destruct (validMigrationType spec) eqn:Hv; [| discriminate].
    intros [= <-]; simpl. rewrite Hd. split; [now split |].
    intros file [<- | []]. unfold validMigrationType in Hv.
    apply orb_true_iff in Hv as [Hv | Hv]; apply String.eqb_eq in Hv; auto.
Qed.

(** X6: [list] fails only when the migrations directory cannot be read, or
    when an entry of it that is named as a migration cannot be looked at
    ([statSync] throws) or is a directory that cannot be read, and then with
    the error of that path; [semigrate] then throws this error on the spot:
    nothing is printed or issued, no connection is asked for and the
    callback is not called. *)
Theorem unreadable_directory_throws {DB : Type}
    (pg_connect : string -> DB -> option Exn)
    (client_query : Statement -> DB -> (Exn + Rows) * DB)
    (fs : FileSystem) (require_ : string -> DB -> Completion * DB)
    (config : Config) (db : DB) (e : Exn) :
  VersionCatalog.list fs (directory_or_dot config) = inl e ->
  semigrate pg_connect client_query fs require_ (Some config) db = (Thrown e, db, []) /\
  ((e = FsError (directory_or_dot config) /\
    readdirSync fs (directory_or_dot config) = None)
   \/ exists names name,
        readdirSync fs (directory_or_dot config) = Some names /\ In name names /\
        e = FsError (path_join (directory_or_dot config) name) /\
        well_named (path_basename (path_join (directory_or_dot config) name)) = true /\
        (statSync fs (path_join (directory_or_dot config) name) = None \/
         (statSync fs (path_join (directory_or_dot config) name) = Some true /\
          readdirSync fs (path_join (directory_or_dot config) name) = None))).
Proof.
  intros Hlist. split; [simpl; now rewrite Hlist |].
  unfold VersionCatalog.list in Hlist. rewrite or_dot_directory in Hlist.
  destruct (readdirSync fs (directory_or_dot config)) as [names|] eqn:Hdir.
  - right. destruct (VersionCatalog.map_throwing _ _) as [e0|parsed] eqn:E; [| discriminate].
    injection Hlist as ->.
    destruct (map_throwing_fails _ _ _ E) as (spec & Hspec & Hparse).
    apply in_map_iff in Hspec as (name & <- & Hname).
    apply parse_fails in Hparse as (-> & Hw & Hwhy).
    now exists names, name.
  - left. now injection Hlist as <-.
Qed.

(** The directory of the README with its group directory unreadable, and a
    directory with an entry that cannot be looked at. *)
Lemma unreadable_directory_witness :
  let config := Sample.config "app" "migrations" false in
  let e := FsError "migrations/0.0.1-initial-schema" in
  let broken := Sample.config "app" "v15" false in
  VersionCatalog.list Unreadable.fs (directory_or_dot config) = inl e /\
  semigrate Sample.pg_connect Sample.client_query Unreadable.fs Sample.require_
    (Some config) Sample.fresh = (Thrown e, Sample.fresh, []) /\
  statSync Unreadable.fs "v15/1.5.0-release.sql" = None /\
  semigrate Sample.pg_connect Sample.client_query Unreadable.fs Sample.require_
    (Some broken) Sample.fresh = (Thrown (FsError "v15/1.5.0-release.sql"), Sample.fresh, []).
Proof.
  split; [reflexivity |]. split; [| split; [reflexivity |]].
  - exact (proj1 (unreadable_directory_throws Sample.pg_connect Sample.client_query
                    Unreadable.fs Sample.require_ (Sample.config "app" "migrations" false)
                    Sample.fresh (FsError "migrations/0.0.1-initial-schema") eq_refl)).
  - exact (proj1 (unreadable_directory_throws Sample.pg_connect Sample.client_query
                    Unreadable.fs Sample.require_ (Sample.config "app" "v15" false)
                    Sample.fresh (FsError "v15/1.5.0-release.sql") eq_refl)).
Defined.

(** The README layout. *)
Lemma list_exactly_the_parsed_entries_witness :
  In initial_schema (Sample.catalog "migrations") <->
  exists name, In name (Sample.names "migrations") /\
    VersionCatalog.parseMigrationSpec Sample.fs (path_join "migrations" name)
    = inr (Some initial_schema).
Proof.
  exact (list_exactly_the_parsed_entries Sample.fs "migrations"
           (Sample.names "migrations") (Sample.catalog "migrations") initial_schema
           eq_refl eq_refl).
Defined.

(** The grouped unit of the README layout. *)
Lemma catalog_units_are_scripts_witness :
  (if multiple initial_schema
   then isDirectory Sample.fs (path initial_schema) = true /\
        exists children, readdirSync Sample.fs (path initial_schema) = Some children /\
          files initial_schema
          = filter validMigrationType (map (path_join (path initial_schema)) children)
   else isDirectory Sample.fs (path initial_schema) = false /\
        files initial_schema = [path initial_schema]) /\
  (forall file, In file (step_files initial_schema) ->
     path_extname file = ".sql" \/ path_extname file = ".js").
Proof.
  apply (catalog_units_are_scripts Sample.fs "migrations" (Sample.catalog "migrations")
           initial_schema eq_refl).
  left. reflexivity.
Defined.

(** ** Order of versions, once more *)

Lemma gt_false (a b : SemVer) :
  semver.gt a b = false <->
  ~ (major b < major a \/
     (major a = major b /\ (minor b < minor a \/ (minor a = minor b /\ patch b < patch a))))%N.
Proof.
  rewrite <- gt_spec. destruct (semver.gt a b); split; intros H.
  - discriminate.
  - now destruct H.
  - discriminate.
  - reflexivity.
Qed.

Lemma not_gt_trans (a b c : SemVer) :
  semver.gt a b = false -> semver.gt b c = false -> semver.gt a c = false.
Proof.
  rewrite !gt_false. lia.
Qed.

Lemma gt_asym (a b : SemVer) : semver.gt a b = true -> semver.gt b a = false.
Proof.
  intros H. apply gt_false. apply gt_spec in H. lia.
Qed.

Lemma gt_irrefl (a : SemVer) : semver.gt a a = false.
Proof. apply gt_false. lia. Qed.

Lemma maxSatisfying_none (l : list SemVer) : semver.maxSatisfying l = None <-> l = [].
Proof.
  destruct l as [|x l]; simpl; [tauto |].
  split; [| discriminate].
  destruct (semver.maxSatisfying l) as [w|]; [destruct (semver.gt w x) |]; discriminate.
Qed.

(** [maxSatisfying] picks an element of the list that none exceeds. *)
Lemma maxSatisfying_greatest (l : list SemVer) (top : SemVer) :
  semver.maxSatisfying l = Some top ->
  In top l /\ forall w, In w l -> semver.gt w top = false.
Proof.
  revert top. induction l as [|x l IH]; intros top; simpl; [discriminate |].
  destruct (semver.maxSatisfying l) as [w|] eqn:E.
  - destruct (IH w eq_refl) as (Hin & Hmax).
    destruct (semver.gt w x) eqn:Hwx; intros [= <-].
    + split; [now right |]. intros y [<- | Hy]; [now apply gt_asym | now apply Hmax].
    + split; [now left |]. intros y [<- | Hy]; [apply gt_irrefl |].
      apply (not_gt_trans y w x); [now apply Hmax | exact Hwx].
  - apply maxSatisfying_none in E; subst l. intros [= <-].
    split; [now left |]. intros y [<- | []]. apply gt_irrefl.
Qed.

Lemma caret_self (t : SemVer) : semver.satisfies_caret t t = true.
Proof.
  destruct t as [t1 t2 t3].
  unfold semver.satisfies_caret, semver.gte, semver.lt, semver.caret_upper, semver.compare;
    simpl.
  destruct (N.eqb_spec t1 0); simpl; [destruct (N.eqb_spec t2 0); simpl |]; semver_cases.
Qed.



(** ** [qMapSerial] *)

Section Serial.
Local Open Scope list_scope.
Context {DB : Type} {X : Type}.
Variable func : X -> @Task DB unit.

Local Abbreviation step_ := (fun (last : @Task DB unit) (x : X) => then_ last (fun _ => func x)).

Lemma fold_then (l : list X) (acc : @Task DB unit) (db : DB) :
  fold_left step_ l acc db
  = match acc db with
    | (Resolved _, db1, t1) =>
        let '(o, db2, t2) := fold_left step_ l (Q_ tt) db1 in (o, db2, t1 ++ t2)
    | failed => failed
    end.
Proof.
  revert acc db. induction l as [|x l IH]; intros acc db; simpl.
  - destruct (acc db) as [[[[]|e|e|e] db1] t1]; try reflexivity.
    now rewrite app_nil_r.
  - rewrite IH.
    assert (Hthen : forall p : @Task DB unit, forall d,
      then_ p (fun _ => func x) d
      = match p d with
        | (Resolved _, db1, t1) =>
            let '(o, db2, t2) := caught (func x db1) in (o, db2, t1 ++ t2)
        | failed => failed
        end).
    { intros p d. unfold then_, bind. destruct (p d) as [[[[]|e|e|e] db1] t1]; reflexivity. }
    rewrite Hthen.
    destruct (acc db) as [[[[]|e|e|e] db1] t1]; try reflexivity.
    rewrite (IH (then_ (Q_ tt) (fun _ => func x)) db1), Hthen.
    change (@Q_ DB unit tt db1) with (@Resolved unit tt, db1, @nil Event).
    cbv iota beta.
    destruct (caught (func x db1)) as [[[[]|e|e|e] db2] t2]; try reflexivity.
    simpl app.
    destruct (fold_left step_ l (Q_ tt) db2) as [[o db3] t3].
    now rewrite app_assoc.
Qed.

Lemma qMapSerial_cons (x : X) (l : list X) (db : DB) :
  qMapSerial (x :: l) func db
  = match caught (func x db) with
    | (Resolved _, db1, t1) =>
        let '(o, db2, t2) := qMapSerial l func db1 in (o, db2, t1 ++ t2)
    | failed => failed
    end.
Proof.
  unfold qMapSerial. simpl. rewrite fold_then.
  unfold then_, bind, Q_. simpl.
  destruct (caught (func x db)) as [[[[]|e|e|e] db1] t1]; reflexivity.
Qed.

Lemma qMapSerial_not_thrown (l : list X) (db : DB) (e : Exn) :
  fst (fst (qMapSerial l func db)) <> Thrown e.
Proof.
  revert db. induction l as [|x l IH]; intros db; [discriminate |].
  rewrite qMapSerial_cons.
  destruct (func x db) as [[[[]|e0|e0|e0] db1] t1]; simpl; try discriminate.
  specialize (IH db1). destruct (qMapSerial l func db1) as [[o db2] t2]. exact IH.
Qed.

(** X7: [qMapSerial] calls the function on the elements one after the
    other, each call starting where the one before resolved; the first call
    that fails ends it with that failure, and the function is not called on
    the elements after it.  An exception the function throws becomes a
    rejection: [qMapSerial] itself never throws.  On an empty array it
    resolves at once. *)
Theorem qMapSerial_in_order (db : DB) :
  qMapSerial [] func db = (Resolved tt, db, []) /\
  (forall x l,
     qMapSerial (x :: l) func db
     = match caught (func x db) with
       | (Resolved _, db1, t1) =>
           let '(o, db2, t2) := qMapSerial l func db1 in (o, db2, t1 ++ t2)
       | failed => failed
       end) /\
  (forall l e, fst (fst (qMapSerial l func db)) <> Thrown e).
Proof.
  split; [reflexivity | split].
  - intros x l. apply qMapSerial_cons.
  - intros l e. apply qMapSerial_not_thrown.
Qed.
End Serial.

(** ** Detection, verification and the phases of a run *)

Lemma loaded_files_app (a b : list Event) :
  loaded_files (a ++ b) = (loaded_files a ++ loaded_files b)%list.
Proof. apply pick_app. Qed.

Section Phases.
Local Open Scope list_scope.
Context {DB : Type}.
Variable pg_connect : string -> DB -> option Exn.
Variable client_query : Statement -> DB -> (Exn + Rows) * DB.
Variable fs : FileSystem.
Variable require_ : string -> DB -> Completion * DB.

(** X8: [detect] issues the one SELECT and nothing else.  When it fails
    [detect] rejects with its error; when it succeeds [detect] resolves with
    a recorded version that no recorded version exceeds, or with null when
    nothing is recorded; only a version found and not asked to be quiet
    about is printed. *)
Theorem detect_greatest_recorded (quiet : bool) (conn : Connection) (db : DB) :
  let '(o, db', t) := detect client_query quiet conn db in
  statements t = [SELECT] /\
  db' = snd (client_query SELECT db) /\
  match fst (client_query SELECT db) with
  | inl e => o = Rejected e /\ t = [Issue SELECT; Complete SELECT false]
  | inr rows =>
      exists version,
        o = Resolved version /\
        match version with
        | None => rows = [] /\ t = [Issue SELECT; Complete SELECT true]
        | Some top =>
            In top rows /\ (forall w, In w rows -> semver.gt w top = false) /\
            t = [Issue SELECT; Complete SELECT true]
                  ++ (if quiet then []
                      else [Stdout (report_info "Current version...");
                            Stdout (report_version top)])
        end
  end.
Proof.
  destruct (client_query SELECT db) as [[e|rows] db1] eqn:Hq.
  - rewrite (detect_fails client_query quiet conn db db1 e Hq). simpl. now repeat split.
  - rewrite (detect_returns client_query quiet conn db db1 rows Hq). simpl.
    split; [destruct (semver.maxSatisfying rows); destruct quiet; reflexivity |].
    split; [reflexivity |].
    exists (semver.maxSatisfying rows). split; [reflexivity |].
    destruct (semver.maxSatisfying rows) as [top|] eqn:Hmax.
    + destruct (maxSatisfying_greatest rows top Hmax) as (Hin & Hall).
      split; [exact Hin | split; [exact Hall | now destruct quiet]].
    + apply maxSatisfying_none in Hmax. now split.
Qed.

(** [check] on a detection that succeeded, as a table. *)
Lemma check_detected (target : option SemVer) (conn : Connection) (db db' : DB) (rows : Rows) :
  client_query SELECT db = (inr rows, db') ->
  check client_query target conn db
  = match semver.maxSatisfying rows, target with
    | None, _ =>
        (Rejected (Error OUT_OF_DATE), db',
         [Issue SELECT; Complete SELECT true; Stdout (console_log "")])
    | Some v, None =>
        (Rejected (TypeError "Invalid Version"), db',
         [Issue SELECT; Complete SELECT true; Stdout (console_log "")])
    | Some v, Some t =>
        if semver.gt t v then
          (Rejected (Error OUT_OF_DATE), db',
           [Issue SELECT; Complete SELECT true; Stdout (console_log "")])
        else if semver.eq t v then
          (Resolved conn, db',
           [Issue SELECT; Complete SELECT true; Stdout (console_log "");
            Stdout (console_log UP_TO_DATE)])
        else if semver.satisfies_caret v t then
          (Resolved conn, db',
           [Issue SELECT; Complete SELECT true; Stdout (console_log "");
            Stdout (console_log COMPATIBLE)])
        else
          (Rejected (Error INCOMPATIBLE), db',
           [Issue SELECT; Complete SELECT true; Stdout (console_log "")])
    end.
Proof.
  intros Hq. unfold check.
  rewrite (then_resolved _ _ db db' (semver.maxSatisfying rows)
             [Issue SELECT; Complete SELECT true]).
  - destruct (semver.maxSatisfying rows) as [v|]; [| reflexivity].
    destruct target as [t|]; [| reflexivity]. simpl.
    destruct (semver.gt t v); [reflexivity |].
    destruct (semver.eq t v); [reflexivity |].
    destruct (semver.satisfies_caret v t); reflexivity.
  - rewrite (detect_returns client_query true conn db db' rows Hq).
    destruct (semver.maxSatisfying rows); reflexivity.
Qed.

Lemma eq_is_equal (a b : SemVer) : semver.eq a b = true -> a = b.
Proof.
  unfold semver.eq. intros H. apply compare_Eq. now destruct (semver.compare a b).
Qed.


(** X10: with an empty catalog there is no target and verification cannot
    pass, whatever the database holds: an empty table is reported out of
    date, a recorded version makes the comparison throw, and a failed query
    rejects. *)
Theorem check_without_target_never_passes (conn : Connection) (db : DB) :
  let '(o, db', t) := check client_query None conn db in
  is_resolved o = false /\
  match fst (client_query SELECT db) with
  | inl e => o = Rejected e
  | inr [] => o = Rejected (Error OUT_OF_DATE)
  | inr (_ :: _) => exists message, o = Rejected (TypeError message)
  end.
Proof.
  destruct (client_query SELECT db) as [[e|rows] db1] eqn:Hq.
  - unfold check, then_, bind.
    rewrite (detect_fails client_query true conn db db1 e Hq). simpl. now split.
  - rewrite (check_detected None conn db db1 rows Hq). simpl.
    destruct (semver.maxSatisfying rows) as [v|] eqn:Hmax.
    + split; [reflexivity |]. destruct rows; [discriminate | now eexists].
    + apply maxSatisfying_none in Hmax; subst rows. now split.
Qed.
End Phases.

(** ** Whole runs *)

Ltac quiet_side :=
  first [ apply quiet_app
        | apply quiet_output
        | intros; now repeat split ].

Lemma filter_none {A} (f : A -> bool) (l : list A) :
  (forall x, In x l -> f x = false) -> filter f l = [].
Proof.
  induction l as [|x l IH]; simpl; intros H; [reflexivity |].
  rewrite (H x (or_introl eq_refl)). apply IH. intros y Hy. apply H. now right.
Qed.

Section Runs.
Local Open Scope list_scope.
Context {DB : Type}.
Variable pg_connect : string -> DB -> option Exn.
Variable client_query : Statement -> DB -> (Exn + Rows) * DB.
Variable fs : FileSystem.
Variable require_ : string -> DB -> Completion * DB.

Lemma then_rejected {A B} (p : @Task DB A) (f : A -> @Task DB B) (db db1 : DB)
    (e : Exn) (t1 : list Event) :
  p db = (Rejected e, db1, t1) -> then_ p f db = (Rejected e, db1, t1).
Proof. intros H. unfold then_, bind. now rewrite H. Qed.

Lemma check_resolved (last : option SemVer) (conn c : Connection) (db db' : DB)
    (t : list Event) :
  check client_query last conn db = (Resolved c, db', t) ->
  c = conn /\
  exists target rows v,
    last = Some target /\ client_query SELECT db = (inr rows, db') /\
    semver.maxSatisfying rows = Some v /\ semver.satisfies_caret v target = true.
Proof.
  destruct (client_query SELECT db) as [[e|rows] db1] eqn:Hq.
  - unfold check, then_, bind.
    rewrite (detect_fails client_query true conn db db1 e Hq). discriminate.
  - rewrite (check_detected client_query last conn db db1 rows Hq).
    destruct (semver.maxSatisfying rows) as [v|] eqn:Hmax; [| discriminate].
    destruct last as [target|]; [| discriminate].
    destruct (semver.gt target v); [discriminate |].
    destruct (semver.eq target v) eqn:Heq.
    + intros [= <- <- <-]. split; [reflexivity |]. exists target, rows, v.
      apply eq_is_equal in Heq; subst v. repeat split; [exact Hmax | apply caret_self].
    + destruct (semver.satisfies_caret v target) eqn:Hc; [| discriminate].
      intros [= <- <- <-]. split; [reflexivity |]. now exists target, rows, v.
Qed.

(** What it takes for the promise of a run to resolve. *)
Lemma resolved_run (config : Config) (c : Connection) (db db' : DB) (t : list Event) :
  semigrate pg_connect client_query fs require_ (Some config) db = (Resolved c, db', t) ->
  exists migrations target db1 rows v,
    VersionCatalog.list fs (directory_or_dot config) = inr migrations /\
    semver.maxSatisfying (map version migrations) = Some target /\
    client_query SELECT db1 = (inr rows, db') /\
    semver.maxSatisfying rows = Some v /\
    semver.satisfies_caret v target = true.
Proof.
  simpl. destruct (VersionCatalog.list fs (directory_or_dot config)) as [e|migrations];
    [discriminate |].
  unfold fin, then2.
  destruct (chain pg_connect client_query fs require_ config migrations db)
    as [[[conn|e|e|e] db1] t1] eqn:Hchain; simpl; try discriminate.
  intros [= <- <- <-].
  unfold chain in Hchain. cbv zeta in Hchain.
  apply then_resolved_inv in Hchain as (a & db2 & t2 & t3 & _ & Hcheck & _).
  apply check_resolved in Hcheck as (_ & target & rows & v & Hl & Hq & Hm & Hc).
  now exists migrations, target, db2, rows, v.
Qed.

(** X11: the promise of a run resolves only if the catalog is not empty
    and, at the very end, the greatest version recorded in the database
    satisfies the caret range of the greatest version of the catalog: no
    run resolves on a database that is behind the catalog or incompatibly
    ahead of it. *)
Theorem run_resolves_only_on_compatible_database (config : Config) (c : Connection)
    (db db' : DB) (t : list Event) :
  semigrate pg_connect client_query fs require_ (Some config) db = (Resolved c, db', t) ->
  exists migrations target db1 rows v,
    VersionCatalog.list fs (directory_or_dot config) = inr migrations /\
    semver.maxSatisfying (map version migrations) = Some target /\
    client_query SELECT db1 = (inr rows, db') /\
    semver.maxSatisfying rows = Some v /\
    semver.satisfies_caret v target = true.
Proof. apply resolved_run. Qed.

(** X13: on a database that is at or beyond the greatest version of the
    catalog, [migrate] does nothing but detect: it issues the SELECT, prints
    the current version, begins no unit and resolves with the connection. *)
Theorem migrate_on_current_database (migrations : list Migration) (conn : Connection)
    (db db1 : DB) (rows : Rows) (v target : SemVer) :
  client_query SELECT db = (inr rows, db1) ->
  semver.maxSatisfying rows = Some v ->
  semver.maxSatisfying (map version migrations) = Some target ->
  semver.gt target v = false ->
  migrate client_query fs require_ migrations conn db
  = (Resolved conn, db1,
     [Issue SELECT; Complete SELECT true;
      Stdout (report_info "Current version..."); Stdout (report_version v)]).
Proof.
  intros Hq Hmax Htarget Hge.
  rewrite (migrate_detected client_query fs require_ migrations conn db db1 rows Hq).
  cbv zeta. rewrite Hmax.
  rewrite filter_none; [reflexivity |].
  intros m Hm. simpl.
  destruct (maxSatisfying_greatest _ _ Htarget) as (_ & Hall).
  apply (not_gt_trans (version m) target v); [| exact Hge].
  apply Hall. now apply in_map.
Qed.

(** X14: with migration switched off a run begins no unit and never issues
    the bookkeeping INSERT, whatever else it does. *)
Theorem no_migrate_leaves_bookkeeping (config : Config) (db : DB) :
  migrate_option config = false ->
  let t := snd (semigrate pg_connect client_query fs require_ (Some config) db) in
  started t = [] /\ recorded t = [] /\ inserts t = [].
Proof.
  intros Hoff. cbv zeta. simpl.
  destruct (VersionCatalog.list fs (directory_or_dot config)) as [e|migrations];
    [now repeat split |].
  apply (keeps_fin quiet_trace); try quiet_side.
  unfold chain, loaded. rewrite Hoff.
  apply keeps_then; [quiet_side | | intros conn; apply keeps_check; quiet_side].
  apply keeps_then; [quiet_side | |].
  - apply keeps_then; [quiet_side | | intros conn; apply keeps_load; quiet_side].
    apply keeps_then; [quiet_side | | intros conn; apply keeps_Q; quiet_side].
    apply keeps_then; [quiet_side | |].
    + apply keeps_then; [quiet_side | |].
      * apply keeps_connect; quiet_side.
      * intros conn. apply keeps_initialize; quiet_side.
    + intros conn.
      destruct (reset_option config); [apply keeps_reset | apply keeps_Q]; quiet_side.
  - intros conn.
    destruct (dry_run config); simpl; [apply keeps_reverting | apply keeps_finish];
      quiet_side.
Qed.

(** X15: on a run that is not a dry run the COMMIT is issued after loading
    and before verification: verification reads what was committed, and a
    verification that fails leaves the commit in place; a COMMIT that fails
    rejects the run and verification is skipped; a phase that fails earlier
    ends the run before any COMMIT. *)
Theorem commit_precedes_verification (config : Config) (migrations : list Migration)
    (db : DB) :
  dry_run config = false ->
  chain pg_connect client_query fs require_ config migrations db
  = match loaded pg_connect client_query fs require_ config migrations db with
    | (Resolved conn, db1, t1) =>
        match client_query (mkStatement COMMIT []) db1 with
        | (inr _, db2) =>
            let '(o, db3, t3) :=
              caught (check client_query
                        (semver.maxSatisfying (map version migrations)) conn db2) in
            (o, db3, t1 ++ Issue (mkStatement COMMIT [])
                       :: Complete (mkStatement COMMIT []) true :: t3)
        | (inl e, db2) =>
            (Rejected e, db2, t1 ++ [Issue (mkStatement COMMIT []);
                                     Complete (mkStatement COMMIT []) false])
        end
    | failed => failed
    end.
Proof.
  intros Hwet. unfold chain. rewrite Hwet. simpl negb. cbv iota zeta.
  unfold then_ at 1 2. unfold bind.
  destruct (loaded pg_connect client_query fs require_ config migrations db)
    as [[[conn|e|e|e] db1] t1]; try reflexivity.
  unfold finish, thenResolve, then_, bind, query.
  destruct (client_query (mkStatement COMMIT []) db1) as [[e|rows] db2]; simpl;
    [reflexivity |].
  destruct (caught (check client_query _ conn db2)) as [[o db3] t3].
  now rewrite <- app_assoc.
Qed.

(** X16: when the connection cannot be had, the run issues no statement:
    it announces the connection, rejects with the error pg gave, and the
    callback is called; the database is not touched. *)
Theorem connection_failure_ends_run (config : Config) (migrations : list Migration)
    (db : DB) (err : Exn) :
  VersionCatalog.list fs (directory_or_dot config) = inr migrations ->
  pg_connect (database config) db = Some err ->
  semigrate pg_connect client_query fs require_ (Some config) db
  = (Rejected err, db,
     [Stdout (report_info ("Connecting to database " ++ database config ++ "..."
                             ++ newline)%string);
      Callback None]).
Proof.
  intros Hlist Hconn. unfold semigrate. rewrite Hlist.
  assert (Hc : connect pg_connect client_query (database config) db
               = (Rejected err, db,
                  [Stdout (report_info ("Connecting to database " ++ database config
                                          ++ "..." ++ newline)%string)])).
  { unfold connect, say. now rewrite Hconn. }
  assert (Hchain : chain pg_connect client_query fs require_ config migrations db
               = (Rejected err, db,
                  [Stdout (report_info ("Connecting to database " ++ database config
                                          ++ "..." ++ newline)%string)])).
  { unfold chain, loaded. cbv zeta. repeat apply then_rejected. exact Hc. }
  unfold fin, then2. rewrite Hchain. reflexivity.
Qed.
End Runs.

(** ** Scripts that cannot be read, and [load] *)

Section Scripts.
Local Open Scope list_scope.
Context {DB : Type}.
Variable client_query : Statement -> DB -> (Exn + Rows) * DB.
Variable fs : FileSystem.
Variable require_ : string -> DB -> Completion * DB.

Lemma runStep_unreadable (filename : string) (conn : Connection) (verbose : bool) (db : DB) :
  path_extname filename = ".sql" -> readFileSync fs filename = None ->
  runStep client_query fs require_ filename conn verbose db
  = (Thrown (FsError filename), db,
     if verbose then [Stdout (report_step (path_basename filename))] else []).
Proof.
  intros Hext Hread. unfold runStep. rewrite Hext, Hread. simpl.
  destruct verbose; reflexivity.
Qed.

(** X17: a step that throws before it has a promise to return (a script
    that cannot be read, a module that fails to load) ends a single-file
    unit with an uncaught exception: the queue stops and no promise of the
    run settles; inside a group the same exception is a rejection of the
    run.  In neither case is the version inserted or a later unit begun. *)
Theorem throwing_step_in_queue (m : Migration) (rest : list Migration)
    (conn : Connection) (db db1 : DB) (e : Exn) (t1 : list Event) :
  (multiple m = false ->
   runStep client_query fs require_ (path m) conn false db = (Thrown e, db1, t1) ->
   resume client_query fs require_ (m :: rest) conn db
   = (Uncaught e, db1, unit_header m ++ t1)) /\
  (multiple m = true ->
   forall file others, files m = file :: others ->
   runStep client_query fs require_ file conn true db = (Thrown e, db1, t1) ->
   resume client_query fs require_ (m :: rest) conn db
   = (Rejected e, db1, unit_header m ++ t1)).
Proof.
  split.
  - intros Hsingle Hstep. rewrite resume_cons, run_unfolded.
    unfold steps. rewrite Hsingle, Hstep. reflexivity.
  - intros Hgroup file others Hfiles Hstep. rewrite resume_cons, run_unfolded.
    unfold steps. rewrite Hgroup, Hfiles, qMapSerial_cons, Hstep. reflexivity.
Qed.

Local Abbreviation load_one conn :=
  (fun filename : string =>
     match readFileSync fs filename with
     | Some content =>
         say (report_load filename)
           (then_ (query client_query conn content [])
              (fun _ : Rows => say (console_log "") (@Q_ DB unit tt)))
     | None => throw (FsError filename)
     end).

Lemma load_one_outcome (conn : Connection) (filename : string) (db : DB) :
  caught (load_one conn filename db)
  = match readFileSync fs filename with
    | None => (Rejected (FsError filename), db, [])
    | Some content =>
        let s := mkStatement content [] in
        match client_query s db with
        | (inr _, db1) =>
            (Resolved tt, db1,
             [Stdout (report_load filename); Issue s; Complete s true;
              Stdout (console_log "")])
        | (inl e, db1) =>
            (Rejected e, db1, [Stdout (report_load filename); Issue s; Complete s false])
        end
    end.
Proof.
  cbv beta. destruct (readFileSync fs filename) as [content|]; [| reflexivity].
  unfold say, then_, bind, query. cbv zeta.
  destruct (client_query (mkStatement content []) db) as [[e|rows] db1]; reflexivity.
Qed.

Lemma serial_load_observed (scripts : list string) (conn : Connection) (db db' : DB)
    (o : Outcome unit) (t : list Event) :
  qMapSerial scripts (load_one conn) db = (o, db', t) ->
  (o = Resolved tt /\ ScriptsLoaded client_query fs scripts db db' t)
  \/ (exists e pre file post db1 t1,
        o = Rejected e /\ scripts = pre ++ file :: post /\
        ScriptsLoaded client_query fs pre db db1 t1 /\
        ((readFileSync fs file = None /\ e = FsError file /\ db' = db1 /\ t = t1)
         \/ (exists content,
               readFileSync fs file = Some content /\
               client_query (mkStatement content []) db1 = (inl e, db') /\
               t = t1 ++ [Stdout (report_load file); Issue (mkStatement content []);
                          Complete (mkStatement content []) false]))).
Proof.
  revert db db' o t. induction scripts as [|file scripts IH]; intros db db' o t.
  - intros [= <- <- <-]. left. split; [reflexivity | constructor].
  - rewrite qMapSerial_cons, load_one_outcome.
    destruct (readFileSync fs file) as [content|] eqn:Hread.
    + cbv zeta.
      destruct (client_query (mkStatement content []) db) as [[e|rows] db1] eqn:Hq.
      * intros H. assert (Ho : o = Rejected e) by congruence.
        assert (Hd : db' = db1) by congruence.
        assert (Ht : t = [Stdout (report_load file); Issue (mkStatement content []);
                          Complete (mkStatement content []) false]) by congruence.
        subst o db' t. right. exists e, [], file, scripts, db, [].
        split; [reflexivity | split; [reflexivity | split; [constructor |]]].
        right. now exists content.
      * destruct (qMapSerial scripts (load_one conn) db1) as [[o2 db2] t2] eqn:Erest.
        intros H. assert (Ho : o = o2) by congruence.
        assert (Hd : db' = db2) by congruence.
        assert (Ht : t = [Stdout (report_load file); Issue (mkStatement content []);
                          Complete (mkStatement content []) true;
                          Stdout (console_log "")] ++ t2) by congruence.
        subst o db' t.
        destruct (IH _ _ _ _ Erest)
          as [(-> & Hl) | (e & pre & f & post & dbf & tf & -> & -> & Hl & Hwhy)].
        -- left. split; [reflexivity |]. now apply (ScriptsLoaded_cons _ _ _ _ _ rows _ db1).
        -- right. exists e, (file :: pre), f, post, dbf,
             ([Stdout (report_load file); Issue (mkStatement content []);
               Complete (mkStatement content []) true; Stdout (console_log "")] ++ tf).
           split; [reflexivity | split; [reflexivity | split]].
           ++ now apply (ScriptsLoaded_cons _ _ _ _ _ rows _ db1).
           ++ destruct Hwhy as [(Hr & He & Hd & Ht) | (c & Hr & Hc & Ht)].
              ** left. now rewrite Ht.
              ** right. exists c. rewrite Ht, <- app_assoc. now repeat split.
    + intros H. assert (Ho : o = Rejected (FsError file)) by congruence.
      assert (Hd : db' = db) by congruence.
      assert (Ht : t = []) by congruence.
      subst o db' t. right. exists (FsError file), [], file, scripts, db, [].
      split; [reflexivity | split; [reflexivity | split; [constructor |]]].
      left. now repeat split.
Qed.

(** X18: [load] reads, announces and issues the scripts in the order
    given, each after the one before it was taken by the database, and
    resolves with the connection when all went through.  The first script
    that cannot be read, or that the database refuses, rejects it, with the
    error of the file system or of the database; a script that cannot be
    read is neither announced nor issued, and the scripts after the failing
    one are neither read nor issued.  [load] never throws. *)
Theorem load_stops_at_first_failure (scripts : list string) (conn : Connection)
    (db db' : DB) (o : Outcome Connection) (t : list Event) :
  load client_query fs scripts conn db = (o, db', t) ->
  (o = Resolved conn /\ ScriptsLoaded client_query fs scripts db db' t)
  \/ (exists e pre file post db1 t1,
        o = Rejected e /\ scripts = pre ++ file :: post /\
        ScriptsLoaded client_query fs pre db db1 t1 /\
        ((readFileSync fs file = None /\ e = FsError file /\ db' = db1 /\ t = t1)
         \/ (exists content,
               readFileSync fs file = Some content /\
               client_query (mkStatement content []) db1 = (inl e, db') /\
               t = t1 ++ [Stdout (report_load file); Issue (mkStatement content []);
                          Complete (mkStatement content []) false]))).
Proof.
  unfold load, thenResolve. set (q := qMapSerial _ _). unfold then_, bind.
  destruct (q db) as [[o1 db1] t1] eqn:E. unfold q in E.
  destruct (serial_load_observed _ _ _ _ _ _ E)
    as [(-> & Hl) | (e & pre & f & post & dbf & tf & -> & -> & Hl & Hwhy)].
  - simpl. intros H. assert (Ho : o = Resolved conn) by congruence.
    assert (Hd : db' = db1) by congruence.
    assert (Ht : t = t1 ++ []) by congruence. subst o db' t. rewrite app_nil_r.
    left. now split.
  - intros H. assert (Ho : o = Rejected e) by congruence.
    assert (Hd : db' = db1) by congruence.
    assert (Ht : t = t1) by congruence. subst o db' t.
    right. now exists e, pre, f, post, dbf, tf.
Qed.
End Scripts.

(** ** The further properties at the sample inputs *)

(** The version column of [report.migration], and a text wider than it. *)
Lemma pad_spec_witness :
  pad "7" 4 "" false = "   7" /\
  String.length (pad "7" 4 "" false) = 4 /\
  pad "1.0.0" 4 "" false = "1.0.0".
Proof.
  pose proof (pad_spec "7" 4 "" false) as H. cbv zeta in H.
  destruct H as (H1 & H2 & _).
  pose proof (pad_spec "1.0.0" 4 "" false) as H. cbv zeta in H.
  destruct H as (_ & _ & H3).
  split; [exact H1 |]. split; [exact (H2 eq_refl) |].
  apply H3. simpl. lia.
Defined.

(** Detection on a database at 1.0.0. *)
Lemma detect_greatest_recorded_witness :
  let db := Sample.at_version (semver.mk 1 0 0) in
  let '(o, db', t) := detect Sample.client_query false Sample.conn db in
  statements t = [SELECT] /\
  db' = snd (Sample.client_query SELECT db) /\
  match fst (Sample.client_query SELECT db) with
  | inl e => o = Rejected e /\ t = [Issue SELECT; Complete SELECT false]
  | inr rows =>
      exists version,
        o = Resolved version /\
        match version with
        | None => rows = [] /\ t = [Issue SELECT; Complete SELECT true]
        | Some top =>
            In top rows /\ (forall w, In w rows -> semver.gt w top = false) /\
            t = ([Issue SELECT; Complete SELECT true]
                  ++ [Stdout (report_info "Current version...");
                      Stdout (report_version top)])%list
        end
  end.
Proof.
  exact (detect_greatest_recorded Sample.client_query false Sample.conn
           (Sample.at_version (semver.mk 1 0 0))).
Defined.


(** A full run of the README layout on a fresh database. *)
Lemma run_resolves_witness :
  let r := Sample.semigrate (Some (Sample.config "app" "migrations" false)) Sample.fresh in
  is_resolved (fst (fst r)) = true /\
  exists migrations target db1 rows v,
    VersionCatalog.list Sample.fs "migrations" = inr migrations /\
    semver.maxSatisfying (map version migrations) = Some target /\
    Sample.client_query SELECT db1 = (inr rows, snd (fst r)) /\
    semver.maxSatisfying rows = Some v /\
    semver.satisfies_caret v target = true.
Proof.
  split; [vm_compute; reflexivity |].
  apply (run_resolves_only_on_compatible_database Sample.pg_connect Sample.client_query
           Sample.fs Sample.require_ (Sample.config "app" "migrations" false) Sample.conn
           Sample.fresh _
           (snd (Sample.semigrate (Some (Sample.config "app" "migrations" false))
                   Sample.fresh))).
  vm_compute. reflexivity.
Defined.

(** The README layout on a database already at 1.0.0. *)
Lemma migrate_on_current_database_witness :
  Sample.migrate (Sample.catalog "migrations") (Sample.at_version (semver.mk 1 0 0))
  = (Resolved Sample.conn, Sample.at_version (semver.mk 1 0 0),
     [Issue SELECT; Complete SELECT true;
      Stdout (report_info "Current version...");
      Stdout (report_version (semver.mk 1 0 0))]).
Proof.
  exact (migrate_on_current_database Sample.client_query Sample.fs Sample.require_
           (Sample.catalog "migrations") Sample.conn
           (Sample.at_version (semver.mk 1 0 0)) (Sample.at_version (semver.mk 1 0 0))
           [semver.mk 1 0 0] (semver.mk 1 0 0) (semver.mk 1 0 0)
           eq_refl eq_refl eq_refl eq_refl).
Defined.

(** A run with [migrate] off. *)
Lemma no_migrate_witness :
  let config := mkConfig true "app" (Some "migrations") false false load_undefined false in
  let t := snd (Sample.semigrate (Some config) Sample.fresh) in
  started t = [] /\ recorded t = [] /\ inserts t = [].
Proof.
  exact (no_migrate_leaves_bookkeeping Sample.pg_connect Sample.client_query Sample.fs
           Sample.require_
           (mkConfig true "app" (Some "migrations") false false load_undefined false)
           Sample.fresh eq_refl).
Defined.

(** A run that is not a dry run, on the README layout. *)
Lemma commit_precedes_verification_witness :
  let c := Sample.config "app" "migrations" false in
  let ms := Sample.catalog "migrations" in
  issued COMMIT
    (snd (chain Sample.pg_connect Sample.client_query Sample.fs Sample.require_ c ms
            Sample.fresh)) = true /\
  chain Sample.pg_connect Sample.client_query Sample.fs Sample.require_ c ms Sample.fresh
  = match loaded Sample.pg_connect Sample.client_query Sample.fs Sample.require_ c ms
            Sample.fresh with
    | (Resolved conn, db1, t1) =>
        match Sample.client_query (mkStatement COMMIT []) db1 with
        | (inr _, db2) =>
            let '(o, db3, t3) :=
              caught (check Sample.client_query
                        (semver.maxSatisfying (map version ms)) conn db2) in
            (o, db3, (t1 ++ Issue (mkStatement COMMIT [])
                        :: Complete (mkStatement COMMIT []) true :: t3)%list)
        | (inl e, db2) =>
            (Rejected e, db2, (t1 ++ [Issue (mkStatement COMMIT []);
                                      Complete (mkStatement COMMIT []) false])%list)
        end
    | failed => failed
    end.
Proof.
  split; [vm_compute; reflexivity |].
  exact (commit_precedes_verification Sample.pg_connect Sample.client_query Sample.fs
           Sample.require_ (Sample.config "app" "migrations" false)
           (Sample.catalog "migrations") Sample.fresh eq_refl).
Defined.

(** A database server that is down. *)
Lemma connection_failure_witness :
  Sample.semigrate (Some (Sample.config "down" "migrations" false)) Sample.fresh
  = (Rejected (PgError "connection refused"), Sample.fresh,
     [Stdout (report_info ("Connecting to database " ++ "down" ++ "..." ++ newline)%string);
      Callback None]).
Proof.
  exact (connection_failure_ends_run Sample.pg_connect Sample.client_query Sample.fs
           Sample.require_ (Sample.config "down" "migrations" false)
           (Sample.catalog "migrations") Sample.fresh (PgError "connection refused")
           eq_refl eq_refl).
Defined.

(** A single-file unit and a group whose first script cannot be read. *)
Lemma throwing_step_witness :
  resume Sample.client_query Unreadable.fs Sample.require_ [first_unit; third_unit]
    Sample.conn Sample.fresh
  = (Uncaught (FsError "failing/0.0.1-first.sql"), Sample.fresh,
     (unit_header first_unit ++ [])%list) /\
  resume Sample.client_query Unreadable.fs Sample.require_ [Unreadable.group_unit]
    Sample.conn Sample.fresh
  = (Rejected (FsError "migrations/0.0.1-initial-schema/0001-tables.sql"), Sample.fresh,
     (unit_header Unreadable.group_unit ++ [Stdout (report_step "0001-tables.sql")])%list).
Proof.
  split.
  - exact (proj1 (throwing_step_in_queue Sample.client_query Unreadable.fs Sample.require_
                    first_unit [third_unit] Sample.conn Sample.fresh Sample.fresh
                    (FsError "failing/0.0.1-first.sql") [])
             eq_refl eq_refl).
  - exact (proj2 (throwing_step_in_queue Sample.client_query Unreadable.fs Sample.require_
                    Unreadable.group_unit [] Sample.conn Sample.fresh Sample.fresh
                    (FsError "migrations/0.0.1-initial-schema/0001-tables.sql")
                    [Stdout (report_step "0001-tables.sql")])
             eq_refl "migrations/0.0.1-initial-schema/0001-tables.sql"
             ["migrations/0.0.1-initial-schema/0002-views.sql"] eq_refl eq_refl).
Defined.

(** Three scripts to load, the second of which cannot be read. *)
Lemma load_stops_witness :
  let scripts := ["seed/a.sql"; "failing/0.0.1-first.sql"; "seed/b.sql"] in
  let r := load Sample.client_query Unreadable.fs scripts Sample.conn Sample.fresh in
  fst (fst r) = Rejected (FsError "failing/0.0.1-first.sql") /\
  statements (snd r) = [mkStatement "-- seed/a.sql" []] /\
  ((fst (fst r) = Resolved Sample.conn /\
    ScriptsLoaded Sample.client_query Unreadable.fs scripts Sample.fresh (snd (fst r)) (snd r))
   \/ (exists e pre file post db1 t1,
         fst (fst r) = Rejected e /\ scripts = (pre ++ file :: post)%list /\
         ScriptsLoaded Sample.client_query Unreadable.fs pre Sample.fresh db1 t1 /\
         ((readFileSync Unreadable.fs file = None /\ e = FsError file /\
           snd (fst r) = db1 /\ snd r = t1)
          \/ (exists content,
                readFileSync Unreadable.fs file = Some content /\
                Sample.client_query (mkStatement content []) db1 = (inl e, snd (fst r)) /\
                snd r = (t1 ++ [Stdout (report_load file); Issue (mkStatement content []);
                                Complete (mkStatement content []) false])%list)))).
Proof.
  split; [reflexivity |]. split; [reflexivity |].
  apply (load_stops_at_first_failure Sample.client_query Unreadable.fs
           ["seed/a.sql"; "failing/0.0.1-first.sql"; "seed/b.sql"] Sample.conn
           Sample.fresh).
  reflexivity.
Defined.
